(** * planora-socket: the presence-and-relay hub of [src/server.js]

    A shallow embedding of the Socket.IO listeners registered in
    [io.on("connection", ...)] together with the registry they share,
    [connectedUsers], and the properties of the registry, of the presence
    broadcasts and of the relays that follow from the code.

    Layout: JavaScript values, the [Map] and [Set] operations the listeners
    use, the listeners themselves (one definition per [socket.on]), the
    transport's delivery of what they emit, then the theorems. *)

From Stdlib Require Import List String ZArith Bool Arith Lia.
Import ListNotations.

Local Open Scope string_scope.
Local Open Scope list_scope.
#[local] Set Warnings "-register-all".

(** ** JavaScript values *)

(** The values a client can put in a packet: [undefined] (also an argument
    that was not sent), [null], booleans, numbers (NaN and the integer-valued
    ones), strings and plain objects.  An object carries the reference that
    gives it its identity and its own properties in order; arrays and
    functions are outside this universe. *)
Inductive value : Type :=
| VUndefined
| VNull
| VBool (b : bool)
| VNaN
| VNum (n : Z)
| VStr (s : string)
| VObj (ref : nat) (fields : list (string * value)).

(** [!v] is false: ToBoolean. *)
Definition truthy (v : value) : bool :=
  match v with
  | VUndefined | VNull | VNaN => false
  | VBool b => b
  | VNum n => negb (n =? 0)%Z
  | VStr s => negb (s =? "")%string
  | VObj _ _ => true
  end.

(** SameValueZero, the key comparison of [Map] and [Set]: primitives by
    value (NaN equals NaN), objects by reference. *)
Definition same_value_zero (a b : value) : bool :=
  match a, b with
  | VUndefined, VUndefined => true
  | VNull, VNull => true
  | VBool x, VBool y => Bool.eqb x y
  | VNaN, VNaN => true
  | VNum x, VNum y => (x =? y)%Z
  | VStr x, VStr y => (x =? y)%string
  | VObj r _, VObj r' _ => (r =? r')%nat
  | _, _ => false
  end.

(** [a === b]: as SameValueZero, except that NaN differs from itself. *)
Definition strict_equals (a b : value) : bool :=
  match a, b with
  | VNaN, VNaN => false
  | _, _ => same_value_zero a b
  end.

(** The own property [name] of an object's property list. *)
Fixpoint own (name : string) (fields : list (string * value)) : option value :=
  match fields with
  | [] => None
  | (n, v) :: rest => if (n =? name)%string then Some v else own name rest
  end.

(** What a destructuring pattern [{ name }] binds once the source is known
    not to be [undefined] or [null]: the own property, and [undefined] when
    there is none (no property the listeners read is defined on a built-in
    prototype, so primitives yield [undefined]). *)
Definition prop (p : value) (name : string) : value :=
  match p with
  | VObj _ fields =>
      match own name fields with
      | Some v => v
      | None => VUndefined
      end
  | _ => VUndefined
  end.

(** Destructuring [undefined] or [null] raises a TypeError. *)
Definition nullish (p : value) : bool :=
  match p with
  | VUndefined | VNull => true
  | _ => false
  end.

(** A template literal [`${v}`] converts [v] with ToString.  On an object
    that goes through its [toString]; an own [toString] property of this
    universe is not callable, the inherited [valueOf] returns the object
    itself, and the conversion raises a TypeError. *)
Definition template_throws (v : value) : bool :=
  match v with
  | VObj _ fields =>
      match own "toString" fields with
      | Some _ => true
      | None => false
      end
  | _ => false
  end.

(** ** The registry: a [Map] from userId to a [Set] of socket ids *)

(** [socket.id], issued by the transport. *)
Definition handle : Type := string.

(** A [Set] of socket ids: its elements in insertion order, without
    repetition. *)
Definition socket_set : Type := list handle.

Definition set_has (h : handle) (s : socket_set) : bool :=
  existsb (fun x => (x =? h)%string) s.

Definition set_add (h : handle) (s : socket_set) : socket_set :=
  if set_has h s then s else s ++ [h].

Definition set_delete (h : handle) (s : socket_set) : socket_set :=
  filter (fun x => negb (x =? h)%string) s.

(** [connectedUsers]: the entries of the [Map] in insertion order, keys
    pairwise different under SameValueZero.  Every [Set] is created by the
    register listener and stored under one key only, so the entry holds the
    set itself. *)
Definition registry : Type := list (value * socket_set).

Fixpoint map_get (k : value) (m : registry) : option socket_set :=
  match m with
  | [] => None
  | (k', s) :: rest => if same_value_zero k' k then Some s else map_get k rest
  end.

Definition map_has (k : value) (m : registry) : bool :=
  match map_get k m with
  | Some _ => true
  | None => false
  end.

(** [m.set(k, s)]: an existing key keeps its place, a new one goes last. *)
Fixpoint map_set (k : value) (s : socket_set) (m : registry) : registry :=
  match m with
  | [] => [(k, s)]
  | (k', s') :: rest =>
      if same_value_zero k' k then (k', s) :: rest
      else (k', s') :: map_set k s rest
  end.

Fixpoint map_delete (k : value) (m : registry) : registry :=
  match m with
  | [] => []
  | (k', s') :: rest =>
      if same_value_zero k' k then rest else (k', s') :: map_delete k rest
  end.

(** [Array.from(m.keys())]. *)
Definition map_keys (m : registry) : list value := map fst m.

(** ** What the listeners emit *)

(** The outbound events with their payloads. *)
Inductive out_event : Type :=
| user_online (userId : value)
| user_offline (userId : value)
| online_users (userIds : list value)
| typing (senderId : value)
| stop_typing (senderId : value)
| receive_message (senderId content messageId createdAt : value)
| receive_media (senderId mediaType data filename messageId createdAt : value)
| webrtc_offer (senderSocketId : handle) (senderId offer : value)
| webrtc_answer (answer : value) (receiverSocketId : handle)
| webrtc_ice (candidate : value)
| debug_status_response (totalUsers : nat)
    (connectedUsers : list (value * nat * list handle)) (socketId : handle).

(** The three ways the code emits: [io.emit], [socket.emit] and
    [io.to(room).emit]. *)
Inductive command : Type :=
| io_emit (e : out_event)
| socket_emit (e : out_event)
| io_to_emit (room : value) (e : out_event).

(** A listener either returns, leaving a registry and the emissions it
    made in order, or lets a TypeError escape.  Nothing catches it: the
    process has no handler for uncaught exceptions, so no state follows. *)
Inductive outcome : Type :=
| Throws
| Returns (connectedUsers : registry) (emitted : list command).

(** ** The listeners *)

Section Listeners.

(** The socket the listeners were registered for; [socket.id]. *)
Variable socket_id : handle.

(** [socket.on("register", (userId) => ...)], lines 24-51. *)
Definition on_register (userId : value) (connectedUsers : registry) : outcome :=
  if negb (truthy userId) then Returns connectedUsers []
  else
    let connectedUsers :=
      if negb (map_has userId connectedUsers)
      then map_set userId [] connectedUsers
      else connectedUsers in
    match map_get userId connectedUsers with
    | None => Throws
    | Some sockets =>
        (* .add(socket.id) on the stored set *)
        let connectedUsers :=
          map_set userId (set_add socket_id sockets) connectedUsers in
        (* console.log(`... ${userId} registered ...`) *)
        if template_throws userId then Throws
        else
          let onlineUserIds := map_keys connectedUsers in
          Returns connectedUsers
            (io_emit (user_online userId)
             :: socket_emit (online_users onlineUserIds)
             :: map (fun onlineUserId => socket_emit (user_online onlineUserId))
                  (filter (fun onlineUserId =>
                             negb (strict_equals onlineUserId userId))
                     onlineUserIds))
    end.

(** [socket.on("request_online_users", ...)], lines 56-60. *)
Definition on_request_online_users (connectedUsers : registry) : outcome :=
  let onlineUserIds := map_keys connectedUsers in
  Returns connectedUsers [socket_emit (online_users onlineUserIds)].

(** The [for ... of connectedUsers.entries()] loop of the disconnect
    listener up to its [break]: the first entry whose set has the socket,
    with the socket deleted from that set in place.  [None] when the loop
    runs to its end. *)
Fixpoint disconnect_scan (entries : registry)
  : option (value * socket_set * registry) :=
  match entries with
  | [] => None
  | (userId, sockets) :: rest =>
      if set_has socket_id sockets
      then
        let sockets := set_delete socket_id sockets in
        Some (userId, sockets, (userId, sockets) :: rest)
      else
        match disconnect_scan rest with
        | Some (u, s, rest') => Some (u, s, (userId, sockets) :: rest')
        | None => None
        end
  end.

(** [socket.on("disconnect", ...)], lines 64-90. *)
Definition on_disconnect (connectedUsers : registry) : outcome :=
  match disconnect_scan connectedUsers with
  | None =>
      (* userIdToCheck is still null *)
      Returns connectedUsers []
  | Some (userId, sockets, connectedUsers) =>
      (* console.log(`Removed socket ... from user ${userId}`) *)
      if template_throws userId then Throws
      else if (List.length sockets =? 0)%nat
      then
        let connectedUsers := map_delete userId connectedUsers in
        let userIdToCheck := userId in
        if truthy userIdToCheck
        then Returns connectedUsers [io_emit (user_offline userIdToCheck)]
        else Returns connectedUsers []
      else Returns connectedUsers []
  end.

(** [socket.on("typing", ({ senderId, receiverId }) => ...)], lines 95-104. *)
Definition on_typing (payload : value) (connectedUsers : registry) : outcome :=
  if nullish payload then Throws
  else
    let senderId := prop payload "senderId" in
    let receiverId := prop payload "receiverId" in
    if negb (truthy senderId) || negb (truthy receiverId)
    then Returns connectedUsers []
    else
      match map_get receiverId connectedUsers with
      | None => Returns connectedUsers []
      | Some receiverSockets =>
          Returns connectedUsers
            (map (fun socketId => io_to_emit (VStr socketId) (typing senderId))
               receiverSockets)
      end.

(** [socket.on("stop_typing", ...)], lines 106-115. *)
Definition on_stop_typing (payload : value) (connectedUsers : registry)
  : outcome :=
  if nullish payload then Throws
  else
    let senderId := prop payload "senderId" in
    let receiverId := prop payload "receiverId" in
    if negb (truthy senderId) || negb (truthy receiverId)
    then Returns connectedUsers []
    else
      match map_get receiverId connectedUsers with
      | None => Returns connectedUsers []
      | Some receiverSockets =>
          Returns connectedUsers
            (map (fun socketId =>
                    io_to_emit (VStr socketId) (stop_typing senderId))
               receiverSockets)
      end.

(** [socket.on("send_message", ...)], lines 120-137. *)
Definition on_send_message (payload : value) (connectedUsers : registry)
  : outcome :=
  if nullish payload then Throws
  else
    let senderId := prop payload "senderId" in
    let receiverId := prop payload "receiverId" in
    let content := prop payload "content" in
    let messageId := prop payload "messageId" in
    let createdAt := prop payload "createdAt" in
    if negb (truthy senderId) || negb (truthy receiverId)
       || negb (truthy content)
    then Returns connectedUsers []
    else
      match map_get receiverId connectedUsers with
      | Some receiverSockets =>
          Returns connectedUsers
            (map (fun socketId =>
                    io_to_emit (VStr socketId)
                      (receive_message senderId content messageId createdAt))
               receiverSockets)
      | None => Returns connectedUsers []
      end.

(** [socket.on("send_media", ...)], lines 140-167. *)
Definition on_send_media (payload : value) (connectedUsers : registry)
  : outcome :=
  if nullish payload then Throws
  else
    let senderId := prop payload "senderId" in
    let receiverId := prop payload "receiverId" in
    let mediaType := prop payload "mediaType" in
    let data := prop payload "data" in
    let filename := prop payload "filename" in
    let messageId := prop payload "messageId" in
    let createdAt := prop payload "createdAt" in
    if negb (truthy senderId) || negb (truthy receiverId)
       || negb (truthy mediaType)
    then Returns connectedUsers []
    else
      match map_get receiverId connectedUsers with
      | None => Returns connectedUsers []
      | Some receiverSockets =>
          Returns connectedUsers
            (map (fun socketId =>
                    io_to_emit (VStr socketId)
                      (receive_media senderId mediaType data filename
                         messageId createdAt))
               receiverSockets)
      end.

(** [socket.on("webrtc_offer", ...)], lines 174-187. *)
Definition on_webrtc_offer (payload : value) (connectedUsers : registry)
  : outcome :=
  if nullish payload then Throws
  else
    let receiverId := prop payload "receiverId" in
    let senderId := prop payload "senderId" in
    let offer := prop payload "offer" in
    if negb (truthy receiverId) || negb (truthy senderId)
       || negb (truthy offer)
    then Returns connectedUsers []
    else
      match map_get receiverId connectedUsers with
      | None => Returns connectedUsers []
      | Some sockets =>
          Returns connectedUsers
            (map (fun socketId =>
                    io_to_emit (VStr socketId)
                      (webrtc_offer socket_id senderId offer))
               sockets)
      end.

(** [socket.on("webrtc_answer", ...)], lines 190-197. *)
Definition on_webrtc_answer (payload : value) (connectedUsers : registry)
  : outcome :=
  if nullish payload then Throws
  else
    let senderSocketId := prop payload "senderSocketId" in
    let answer := prop payload "answer" in
    if negb (truthy senderSocketId) || negb (truthy answer)
    then Returns connectedUsers []
    else
      Returns connectedUsers
        [io_to_emit senderSocketId (webrtc_answer answer socket_id)].

(** [socket.on("webrtc_ice", ...)], lines 200-204. *)
Definition on_webrtc_ice (payload : value) (connectedUsers : registry)
  : outcome :=
  if nullish payload then Throws
  else
    let targetSocketId := prop payload "targetSocketId" in
    let candidate := prop payload "candidate" in
    if negb (truthy targetSocketId) || negb (truthy candidate)
    then Returns connectedUsers []
    else
      Returns connectedUsers
        [io_to_emit targetSocketId (webrtc_ice candidate)].

(** [socket.on("debug_status", ...)], lines 209-222. *)
Definition on_debug_status (connectedUsers : registry) : outcome :=
  Returns connectedUsers
    [socket_emit
       (debug_status_response (List.length connectedUsers)
          (map (fun '(userId, sockets) => (userId, List.length sockets, sockets))
             connectedUsers)
          socket_id)].

(** The listener the socket has for an event name; an event without a
    listener does nothing. *)
Definition listener (event : string) (payload : value)
    (connectedUsers : registry) : outcome :=
  if (event =? "register")%string then on_register payload connectedUsers
  else if (event =? "request_online_users")%string
       then on_request_online_users connectedUsers
  else if (event =? "disconnect")%string then on_disconnect connectedUsers
  else if (event =? "typing")%string then on_typing payload connectedUsers
  else if (event =? "stop_typing")%string
       then on_stop_typing payload connectedUsers
  else if (event =? "send_message")%string
       then on_send_message payload connectedUsers
  else if (event =? "send_media")%string
       then on_send_media payload connectedUsers
  else if (event =? "webrtc_offer")%string
       then on_webrtc_offer payload connectedUsers
  else if (event =? "webrtc_answer")%string
       then on_webrtc_answer payload connectedUsers
  else if (event =? "webrtc_ice")%string
       then on_webrtc_ice payload connectedUsers
  else if (event =? "debug_status")%string
       then on_debug_status connectedUsers
  else Returns connectedUsers [].

End Listeners.

(** ** Runs *)

(** One inbound event: the socket it arrives on, its name, its payload. *)
Definition inbound : Type := (handle * string * value)%type.

(** The listeners run one after the other on the shared registry.  [None]
    once a listener has thrown. *)
Fixpoint run (events : list inbound) (connectedUsers : registry)
  : option registry :=
  match events with
  | [] => Some connectedUsers
  | (socket_id, event, payload) :: rest =>
      match listener socket_id event payload connectedUsers with
      | Throws => None
      | Returns connectedUsers _ => run rest connectedUsers
      end
  end.

(** The registry states the server can be in: those a run from the empty
    [Map] ends in. *)
Definition reachable (connectedUsers : registry) : Prop :=
  exists events, run events [] = Some connectedUsers.

(** [connectionsOf(userId)]: the user's set, empty when the key is absent. *)
Definition connectionsOf (userId : value) (connectedUsers : registry)
  : socket_set :=
  match map_get userId connectedUsers with
  | Some sockets => sockets
  | None => []
  end.

(** ** The transport *)

(** Delivery of one emission, given the sockets that are connected and the
    emitting socket.  [io.emit] reaches every connected socket and
    [socket.emit] the socket itself.  The code never joins a room, so the
    only member of a room is the socket whose id is the room's name:
    [io.to(room)] reaches that socket when it is connected and nobody
    otherwise. *)
Definition deliver (sockets : list handle) (self : handle) (c : command)
  : list (handle * out_event) :=
  match c with
  | io_emit e => map (fun h => (h, e)) sockets
  | socket_emit e => if set_has self sockets then [(self, e)] else []
  | io_to_emit (VStr room) e => if set_has room sockets then [(room, e)] else []
  | io_to_emit _ _ => []
  end.

Definition deliveries (sockets : list handle) (self : handle)
    (emitted : list command) : list (handle * out_event) :=
  flat_map (deliver sockets self) emitted.

(** The events a socket receives among some deliveries. *)
Definition received_by (h : handle) (ds : list (handle * out_event))
  : list out_event :=
  map snd (filter (fun d => (fst d =? h)%string) ds).

(** ** Representation invariant of the registry *)

(** A [Set] holds no element twice. *)
Fixpoint set_ok (s : socket_set) : bool :=
  match s with
  | [] => true
  | h :: rest => negb (set_has h rest) && set_ok rest
  end.

(** A [Map] holds no key twice. *)
Fixpoint keys_distinct (m : registry) : bool :=
  match m with
  | [] => true
  | (k, _) :: rest => negb (map_has k rest) && keys_distinct rest
  end.

(** What the register listener establishes for the entry it writes: the
    key passed [!userId] and the template literal of the log, the set is a
    set and is not empty. *)
Definition entry_ok (e : value * socket_set) : bool :=
  truthy (fst e) && negb (template_throws (fst e))
  && negb (List.length (snd e) =? 0)%nat && set_ok (snd e).

Definition registry_ok (m : registry) : bool :=
  keys_distinct m && forallb entry_ok m.

(** The entry the disconnect loop stops at: the first one, in insertion
    order, whose set has the socket. *)
Definition owner (h : handle) (m : registry) : option (value * socket_set) :=
  find (fun e => set_has h (snd e)) m.

(** [register(userId, handle)] on the registry: the handle joins the
    user's set, which is created when the key is absent. *)
Definition registered (h : handle) (userId : value) (m : registry)
  : registry :=
  map_set userId (set_add h (connectionsOf userId m)) m.

(** ** The HTTP routes *)

(** What [res.json] is given. *)
Inductive http_body : Type :=
| online_users_body (success : bool) (onlineUsers : list value) (count : nat)
| success_body (success : bool).

(** [app.get("/api/online-users", ...)], lines 226-233. *)
Definition api_online_users (connectedUsers : registry) : http_body :=
  let onlineUsers := map_keys connectedUsers in
  online_users_body true onlineUsers (List.length onlineUsers).

(** The event of the notify route, [notification{message}]. *)
Inductive notification_event : Type :=
| notification (message : value).

(** The route handler either returns, after its [io.to(room).emit]s and
    with the body it answered, or throws; Express answers a handler that
    throws with an error response. *)
Inductive notify_outcome : Type :=
| NotifyThrows
| NotifyReturns (emitted : list (value * notification_event))
    (answer : http_body).

(** [app.post("/notify/appointment", ...)], lines 238-249, on [req.body]. *)
Definition notify_appointment (body : value) (connectedUsers : registry)
  : notify_outcome :=
  if nullish body then NotifyThrows
  else
    let recipientId := prop body "recipientId" in
    let message := prop body "message" in
    match map_get recipientId connectedUsers with
    | Some sockets =>
        NotifyReturns
          (map (fun socketId => (VStr socketId, notification message)) sockets)
          (success_body true)
    | None => NotifyReturns [] (success_body true)
    end.

(** The sockets in a room: the socket of that id when it is connected (see
    [deliver]). *)
Definition room_members (sockets : list handle) (room : value)
  : list handle :=
  match room with
  | VStr r => if set_has r sockets then [r] else []
  | _ => []
  end.

(** Delivery of emissions that are all [io.to(room).emit]: each one, as a
    room and an event, reaches the members of the room. *)
Definition room_deliveries {E : Type} (sockets : list handle)
    (emitted : list (value * E)) : list (handle * E) :=
  flat_map (fun re => map (fun h => (h, snd re)) (room_members sockets (fst re)))
    emitted.

(** The events a socket receives among such deliveries. *)
Definition delivered_to {E : Type} (h : handle) (ds : list (handle * E))
  : list E :=
  map snd (filter (fun d => (fst d =? h)%string) ds).

(** ** Runs and what the sockets asked for *)

(** In [events] the socket [h] sent [register] with a userId that passes
    the guard and that the [Map] identifies with [k]. *)
Definition registered_as (h : handle) (k : value) (events : list inbound)
  : Prop :=
  exists u, In (h, "register", u) events /\
            truthy u = true /\ same_value_zero k u = true.

(** No socket registers under two userIds. *)
Definition one_user_per_socket (events : list inbound) : Prop :=
  forall h u v,
    In (h, "register", u) events -> In (h, "register", v) events ->
    truthy u = true -> truthy v = true -> same_value_zero u v = true.

(** The presence events. *)
Definition is_presence (e : out_event) : bool :=
  match e with
  | user_online _ | user_offline _ => true
  | _ => false
  end.

(** An emission that is addressed, to the socket itself or to a room, and
    carries no presence event. *)
Definition addressed_relay (c : command) : bool :=
  match c with
  | io_emit _ => false
  | socket_emit e | io_to_emit _ e => negb (is_presence e)
  end.

(** The values that are not objects. *)
Definition primitive (v : value) : bool :=
  match v with
  | VUndefined | VNull | VBool _ | VNaN | VNum _ | VStr _ => true
  | VObj _ _ => false
  end.

(** The events whose listener destructures its payload in its parameter
    list. *)
Definition destructures (event : string) : bool :=
  existsb (fun n => (event =? n)%string)
    ["typing"; "stop_typing"; "send_message"; "send_media"; "webrtc_offer";
     "webrtc_answer"; "webrtc_ice"].

(** ** The earlier revision of the server *)

(** The second half of [src/server.js], lines 254-340, is an earlier
    revision of the same server on the same registry: register without
    presence events, a disconnect that goes through every user, and a chat
    relay that echoes to the sender. *)
Module Previous.

(** The outbound events of this revision's chat relay. *)
Inductive out_event : Type :=
| receive_message (senderId content : value)
| message_sent (receiverId content : value).

(** The chat relay either throws or returns after its
    [io.to(room).emit]s. *)
Inductive relay_outcome : Type :=
| RelayThrows
| RelayReturns (emitted : list (value * out_event)).

Section Listeners.

Variable socket_id : handle.

(** [socket.on("register", ...)], lines 274-284. *)
Definition on_register (userId : value) (connectedUsers : registry)
  : outcome :=
  if negb (truthy userId) then Returns connectedUsers []
  else
    let connectedUsers :=
      if negb (map_has userId connectedUsers)
      then map_set userId [] connectedUsers
      else connectedUsers in
    match map_get userId connectedUsers with
    | None => Throws
    | Some sockets =>
        let connectedUsers :=
          map_set userId (set_add socket_id sockets) connectedUsers in
        (* console.log(`... ${userId} registered`) *)
        if template_throws userId then Throws
        else Returns connectedUsers []
    end.

(** The loop of the disconnect listener, lines 290-295, over the entries
    of a [Map]: the socket is deleted from every set, and an entry whose set
    is then empty is deleted. *)
Fixpoint disconnect_loop (entries : registry) : registry :=
  match entries with
  | [] => []
  | (userId, sockets) :: rest =>
      let sockets := set_delete socket_id sockets in
      if (List.length sockets =? 0)%nat
      then disconnect_loop rest
      else (userId, sockets) :: disconnect_loop rest
  end.

(** [socket.on("disconnect", ...)], lines 286-296. *)
Definition on_disconnect (connectedUsers : registry) : outcome :=
  Returns (disconnect_loop connectedUsers) [].

End Listeners.

(** [socket.on("send_message", (data) => ...)], lines 300-318. *)
Definition on_send_message (data : value) (connectedUsers : registry)
  : relay_outcome :=
  if nullish data then RelayThrows
  else
    let senderId := prop data "senderId" in
    let receiverId := prop data "receiverId" in
    let content := prop data "content" in
    let to_receiver :=
      match map_get receiverId connectedUsers with
      | Some receiverSockets =>
          if (0 <? List.length receiverSockets)%nat
          then map (fun id => (VStr id, receive_message senderId content))
                 receiverSockets
          else []
      | None => []
      end in
    let to_sender :=
      match map_get senderId connectedUsers with
      | Some senderSockets =>
          if (0 <? List.length senderSockets)%nat
          then map (fun id => (VStr id, message_sent receiverId content))
                 senderSockets
          else []
      | None => []
      end in
    RelayReturns (to_receiver ++ to_sender).

(** [app.post("/notify/appointment", ...)], lines 322-336. *)
Definition notify_appointment (body : value) (connectedUsers : registry)
  : notify_outcome :=
  if nullish body then NotifyThrows
  else
    let recipientId := prop body "recipientId" in
    let message := prop body "message" in
    match map_get recipientId connectedUsers with
    | Some sockets =>
        if (0 <? List.length sockets)%nat
        then
          NotifyReturns
            (map (fun socketId => (VStr socketId, notification message))
               sockets)
            (success_body true)
        else NotifyReturns [] (success_body true)
    | None => NotifyReturns [] (success_body true)
    end.

(** A run of this revision's listeners on the registry; the chat relay
    does not write it, and an event without a listener does nothing. *)
Fixpoint run (events : list inbound) (connectedUsers : registry)
  : option registry :=
  match events with
  | [] => Some connectedUsers
  | (socket_id, event, payload) :: rest =>
      if (event =? "register")%string then
        match on_register socket_id payload connectedUsers with
        | Throws => None
        | Returns connectedUsers _ => run rest connectedUsers
        end
      else if (event =? "disconnect")%string then
        match on_disconnect socket_id connectedUsers with
        | Throws => None
        | Returns connectedUsers _ => run rest connectedUsers
        end
      else if (event =? "send_message")%string then
        match on_send_message payload connectedUsers with
        | RelayThrows => None
        | RelayReturns _ => run rest connectedUsers
        end
      else run rest connectedUsers
  end.

Definition reachable (connectedUsers : registry) : Prop :=
  exists events, run events [] = Some connectedUsers.

End Previous.

(** * Properties *)

(** ** SameValueZero is an equivalence *)

Lemma same_value_zero_refl (a : value) : same_value_zero a a = true.
Proof.
  destruct a; simpl; auto.
  - apply Bool.eqb_reflx.
  - apply Z.eqb_refl.
  - apply String.eqb_refl.
  - apply Nat.eqb_refl.
Qed.

Lemma same_value_zero_sym (a b : value) :
  same_value_zero a b = same_value_zero b a.
Proof.
  destruct a, b; simpl; auto.
  - destruct b, b0; reflexivity.
  - apply Z.eqb_sym.
  - apply String.eqb_sym.
  - apply Nat.eqb_sym.
Qed.

Lemma same_value_zero_trans (a b c : value) :
  same_value_zero a b = true -> same_value_zero b c = true ->
  same_value_zero a c = true.
Proof.
  destruct a, b; simpl; try discriminate; destruct c; simpl;
    try discriminate; auto.
  - intros H1 H2. apply Bool.eqb_prop in H1, H2. subst. apply Bool.eqb_reflx.
  - rewrite !Z.eqb_eq. congruence.
  - rewrite !String.eqb_eq. congruence.
  - rewrite !Nat.eqb_eq. congruence.
Qed.

(** Two keys the [Map] identifies compare alike with any third value. *)
Lemma same_value_zero_compat (a b c : value) :
  same_value_zero a b = true -> same_value_zero a c = same_value_zero b c.
Proof.
  intros Hab.
  destruct (same_value_zero a c) eqn:Hac, (same_value_zero b c) eqn:Hbc; auto.
  - rewrite same_value_zero_sym in Hab.
    rewrite (same_value_zero_trans _ _ _ Hab Hac) in Hbc. discriminate.
  - rewrite (same_value_zero_trans _ _ _ Hab Hbc) in Hac. discriminate.
Qed.

(** ** [Set] operations *)

Lemma set_has_In (h : handle) (s : socket_set) :
  set_has h s = true <-> In h s.
Proof.
  unfold set_has. rewrite existsb_exists. split.
  - intros [x [Hx Heq]]. apply String.eqb_eq in Heq. now subst.
  - intros Hin. exists h. split; auto. apply String.eqb_refl.
Qed.

Lemma set_has_false (h : handle) (s : socket_set) :
  set_has h s = false <-> ~ In h s.
Proof.
  rewrite <- set_has_In. destruct (set_has h s); split; congruence.
Qed.

Lemma set_has_app (h : handle) (s t : socket_set) :
  set_has h (s ++ t) = set_has h s || set_has h t.
Proof. unfold set_has. apply existsb_app. Qed.

Lemma set_ok_NoDup (s : socket_set) : set_ok s = true <-> NoDup s.
Proof.
  induction s as [|h s IH]; simpl.
  - split; auto using NoDup_nil.
  - rewrite andb_true_iff, negb_true_iff, set_has_false, IH. split.
    + intros [H1 H2]. now constructor.
    + intros H. inversion H; subst. now split.
Qed.

Lemma set_has_add_same (h : handle) (s : socket_set) :
  set_has h (set_add h s) = true.
Proof.
  unfold set_add. destruct (set_has h s) eqn:E; auto.
  rewrite set_has_app, E. simpl. now rewrite String.eqb_refl.
Qed.

Lemma set_add_idem (h : handle) (s : socket_set) :
  set_add h (set_add h s) = set_add h s.
Proof.
  unfold set_add at 1. now rewrite set_has_add_same.
Qed.

Lemma set_add_nonempty (h : handle) (s : socket_set) :
  (List.length (set_add h s) =? 0)%nat = false.
Proof.
  unfold set_add. destruct (set_has h s) eqn:E.
  - destruct s; [discriminate | reflexivity].
  - rewrite length_app. simpl. apply Nat.eqb_neq. lia.
Qed.

Lemma set_ok_add (h : handle) (s : socket_set) :
  set_ok s = true -> set_ok (set_add h s) = true.
Proof.
  unfold set_add. destruct (set_has h s) eqn:E; auto.
  rewrite !set_ok_NoDup. intros Hs.
  apply set_has_false in E.
  apply NoDup_rev in Hs. rewrite <- (rev_involutive (s ++ [h])).
  apply NoDup_rev. rewrite rev_app_distr. simpl. constructor; auto.
  now rewrite <- in_rev.
Qed.

Lemma set_ok_delete (h : handle) (s : socket_set) :
  set_ok s = true -> set_ok (set_delete h s) = true.
Proof.
  rewrite !set_ok_NoDup. unfold set_delete. apply NoDup_filter.
Qed.

(** In a set, an element that is there is there once. *)
Lemma set_ok_count (h : handle) (s : socket_set) :
  set_ok s = true -> set_has h s = true -> count_occ string_dec s h = 1.
Proof.
  rewrite set_ok_NoDup, set_has_In. intros Hs Hin.
  rewrite NoDup_count_occ' with (decA := string_dec) in Hs. auto.
Qed.

(** ** [Map] operations *)

Lemma map_has_cons (k k' : value) (s : socket_set) (m : registry) :
  map_has k ((k', s) :: m) = same_value_zero k' k || map_has k m.
Proof.
  unfold map_has. simpl. now destruct (same_value_zero k' k).
Qed.

(** Lookup follows SameValueZero, not the spelling of the key. *)
Lemma map_get_compat (a b : value) (m : registry) :
  same_value_zero a b = true -> map_get a m = map_get b m.
Proof.
  intros Hab. induction m as [|[k s] m IH]; simpl; auto.
  rewrite (same_value_zero_sym k a), (same_value_zero_sym k b).
  rewrite (same_value_zero_compat a b k Hab). now rewrite IH.
Qed.

Lemma map_get_app (k : value) (m1 m2 : registry) :
  map_get k (m1 ++ m2) =
  match map_get k m1 with
  | Some s => Some s
  | None => map_get k m2
  end.
Proof.
  induction m1 as [|[k' s] m1 IH]; simpl; auto.
  now destruct (same_value_zero k' k).
Qed.

Lemma map_get_set_same (k : value) (s : socket_set) (m : registry) :
  map_get k (map_set k s m) = Some s.
Proof.
  induction m as [|[k' s'] m IH]; simpl.
  - now rewrite same_value_zero_refl.
  - destruct (same_value_zero k' k) eqn:E; simpl; now rewrite E.
Qed.

Lemma map_get_set_other (k k' : value) (s : socket_set) (m : registry) :
  same_value_zero k k' = false ->
  map_get k' (map_set k s m) = map_get k' m.
Proof.
  intros Hne. induction m as [|[a s'] m IH]; simpl.
  - now rewrite Hne.
  - destruct (same_value_zero a k) eqn:E; simpl.
    + now rewrite (same_value_zero_compat a k k' E), Hne.
    + now rewrite IH.
Qed.

Lemma map_set_set (k : value) (s s' : socket_set) (m : registry) :
  map_set k s (map_set k s' m) = map_set k s m.
Proof.
  induction m as [|[a t] m IH]; simpl.
  - now rewrite same_value_zero_refl.
  - destruct (same_value_zero a k) eqn:E; simpl; rewrite E; auto.
    now rewrite IH.
Qed.

Lemma map_has_set (k k' : value) (s : socket_set) (m : registry) :
  map_has k' (map_set k s m) = same_value_zero k k' || map_has k' m.
Proof.
  unfold map_has. destruct (same_value_zero k k') eqn:E; simpl.
  - rewrite <- (map_get_compat k k' _ E). now rewrite map_get_set_same.
  - now rewrite map_get_set_other.
Qed.

Lemma keys_distinct_set (k : value) (s : socket_set) (m : registry) :
  keys_distinct m = true -> keys_distinct (map_set k s m) = true.
Proof.
  induction m as [|[a t] m IH]; simpl; auto.
  rewrite andb_true_iff, negb_true_iff. intros [Ha Hm].
  destruct (same_value_zero a k) eqn:E; simpl.
  - now rewrite Ha, Hm.
  - rewrite map_has_set, (same_value_zero_sym k a), E, Ha. simpl. auto.
Qed.

Lemma forallb_entry_ok_set (k : value) (s : socket_set) (m : registry) :
  entry_ok (k, s) = true ->
  forallb entry_ok m = true ->
  forallb entry_ok (map_set k s m) = true.
Proof.
  intros Hks. induction m as [|[a t] m IH]; simpl.
  - now rewrite Hks.
  - rewrite andb_true_iff. intros [Ha Hm].
    destruct (same_value_zero a k) eqn:E; simpl.
    + rewrite Hm, andb_true_r.
      unfold entry_ok in *. simpl in *.
      rewrite !andb_true_iff in *. tauto.
    + now rewrite Ha, IH.
Qed.

Lemma registry_ok_set (k : value) (s : socket_set) (m : registry) :
  entry_ok (k, s) = true ->
  registry_ok m = true -> registry_ok (map_set k s m) = true.
Proof.
  unfold registry_ok. rewrite !andb_true_iff. intros Hks [H1 H2].
  split; auto using keys_distinct_set, forallb_entry_ok_set.
Qed.

Lemma map_has_delete_sub (k a : value) (m : registry) :
  map_has a (map_delete k m) = true -> map_has a m = true.
Proof.
  induction m as [|[b t] m IH]; simpl; auto.
  destruct (same_value_zero b k) eqn:E.
  - rewrite map_has_cons. intros ->. apply orb_true_r.
  - rewrite !map_has_cons. destruct (same_value_zero b a); simpl; auto.
Qed.

Lemma keys_distinct_delete (k : value) (m : registry) :
  keys_distinct m = true -> keys_distinct (map_delete k m) = true.
Proof.
  induction m as [|[a t] m IH]; simpl; auto.
  rewrite andb_true_iff, negb_true_iff. intros [Ha Hm].
  destruct (same_value_zero a k) eqn:E; simpl; auto.
  rewrite IH by assumption. rewrite andb_true_r, negb_true_iff.
  destruct (map_has a (map_delete k m)) eqn:F; auto.
  apply map_has_delete_sub in F. congruence.
Qed.

(** After [m.delete(k)] the key is gone, in a [Map]. *)
Lemma map_has_delete_same (k : value) (m : registry) :
  keys_distinct m = true -> map_has k (map_delete k m) = false.
Proof.
  induction m as [|[a t] m IH]; simpl; auto.
  rewrite andb_true_iff, negb_true_iff. intros [Ha Hm].
  destruct (same_value_zero a k) eqn:E.
  - unfold map_has in *. now rewrite <- (map_get_compat a k _ E).
  - rewrite map_has_cons, E. simpl. auto.
Qed.

(** ** The register listener *)

Lemma on_register_falsy (h : handle) (userId : value) (m : registry) :
  truthy userId = false -> on_register h userId m = Returns m [].
Proof. unfold on_register. now intros ->. Qed.

(** Past the guard the listener writes the registry and then either dies
    in its log line or goes through the three emissions. *)
Lemma on_register_truthy (h : handle) (userId : value) (m : registry) :
  truthy userId = true ->
  on_register h userId m =
  if template_throws userId then Throws
  else
    Returns (registered h userId m)
      (io_emit (user_online userId)
       :: socket_emit (online_users (map_keys (registered h userId m)))
       :: map (fun o => socket_emit (user_online o))
            (filter (fun o => negb (strict_equals o userId))
               (map_keys (registered h userId m)))).
Proof.
  intros Ht. unfold on_register, registered, connectionsOf. rewrite Ht. simpl.
  unfold map_has. destruct (map_get userId m) as [s|] eqn:E; simpl.
  - rewrite E. reflexivity.
  - rewrite map_get_set_same, map_set_set. reflexivity.
Qed.

Lemma registry_ok_registered (h : handle) (userId : value) (m : registry) :
  truthy userId = true -> template_throws userId = false ->
  registry_ok m = true -> registry_ok (registered h userId m) = true.
Proof.
  intros Ht Hs Hm. unfold registered. apply registry_ok_set; auto.
  unfold entry_ok. simpl. rewrite Ht, Hs, set_add_nonempty. simpl.
  apply set_ok_add. unfold connectionsOf.
  destruct (map_get userId m) as [s|] eqn:E; auto.
  unfold registry_ok in Hm. apply andb_true_iff in Hm as [_ Hm].
  clear Ht Hs. induction m as [|[a t] m IH]; simpl in *; try discriminate.
  apply andb_true_iff in Hm as [Ha Hm].
  destruct (same_value_zero a userId).
  - injection E as <-. unfold entry_ok in Ha. simpl in Ha.
    now apply andb_true_iff in Ha as [_ Ha].
  - auto.
Qed.

Lemma on_register_ok (h : handle) (userId : value) (m m' : registry)
    (out : list command) :
  registry_ok m = true -> on_register h userId m = Returns m' out ->
  registry_ok m' = true.
Proof.
  intros Hm. destruct (truthy userId) eqn:Ht.
  - rewrite on_register_truthy by assumption.
    destruct (template_throws userId) eqn:Hs; try discriminate.
    intros [= <- _]. now apply registry_ok_registered.
  - rewrite on_register_falsy by assumption. now intros [= <- _].
Qed.

(** ** The disconnect listener *)

(** Where the loop stops: the entries before have not the socket, the one
    it stops at has, and only that one's set changes. *)
Lemma disconnect_scan_Some (h : handle) (m m' : registry) (u : value)
    (s' : socket_set) :
  disconnect_scan h m = Some (u, s', m') ->
  exists pre s post,
    m = pre ++ (u, s) :: post /\
    forallb (fun e => negb (set_has h (snd e))) pre = true /\
    set_has h s = true /\
    s' = set_delete h s /\
    m' = pre ++ (u, s') :: post.
Proof.
  revert m'. induction m as [|[a t] m IH]; simpl; try discriminate.
  intros m'. destruct (set_has h t) eqn:E.
  - intros [= <- <- <-]. exists [], t, m. simpl. auto.
  - destruct (disconnect_scan h m) as [[[u0 s0] r0]|] eqn:F; try discriminate.
    intros [= -> -> <-].
    destruct (IH _ eq_refl) as (pre & s & post & -> & Hpre & Hs & -> & ->).
    exists ((a, t) :: pre), s, post. simpl. rewrite E. simpl. auto.
Qed.

Lemma disconnect_scan_None (h : handle) (m : registry) :
  disconnect_scan h m = None <->
  forallb (fun e => negb (set_has h (snd e))) m = true.
Proof.
  induction m as [|[a t] m IH]; simpl.
  - tauto.
  - destruct (set_has h t); simpl.
    + split; discriminate.
    + rewrite <- IH.
      destruct (disconnect_scan h m) as [[[u0 s0] r0]|]; split; congruence.
Qed.

Lemma owner_Some (h : handle) (m : registry) (u : value) (s : socket_set) :
  owner h m = Some (u, s) ->
  exists m', disconnect_scan h m = Some (u, set_delete h s, m').
Proof.
  unfold owner. induction m as [|[a t] m IH]; simpl; try discriminate.
  destruct (set_has h t) eqn:E.
  - intros [= <- <-]. eauto.
  - intros H. destruct (IH H) as [m' ->]. eauto.
Qed.

Lemma owner_None (h : handle) (m : registry) :
  owner h m = None <-> disconnect_scan h m = None.
Proof.
  rewrite disconnect_scan_None. unfold owner.
  induction m as [|[a t] m IH]; simpl; try tauto.
  destruct (set_has h t); simpl; auto. split; discriminate.
Qed.

Lemma keys_distinct_app_absent (pre post : registry) (u : value)
    (s : socket_set) :
  keys_distinct (pre ++ (u, s) :: post) = true -> map_get u pre = None.
Proof.
  induction pre as [|[a t] pre IH]; simpl; auto.
  rewrite andb_true_iff, negb_true_iff. intros [Ha Hm].
  destruct (same_value_zero a u) eqn:E; auto.
  unfold map_has in Ha. rewrite (map_get_compat a u _ E), map_get_app in Ha.
  simpl in Ha. rewrite same_value_zero_refl in Ha.
  destruct (map_get u pre); discriminate.
Qed.

Lemma map_delete_app_absent (pre post : registry) (u : value)
    (s : socket_set) :
  map_get u pre = None -> map_delete u (pre ++ (u, s) :: post) = pre ++ post.
Proof.
  induction pre as [|[a t] pre IH]; simpl.
  - now rewrite same_value_zero_refl.
  - destruct (same_value_zero a u); try discriminate.
    intros H. now rewrite IH.
Qed.

Lemma map_has_keys (m1 m2 : registry) (k : value) :
  map fst m1 = map fst m2 -> map_has k m1 = map_has k m2.
Proof.
  revert m2. induction m1 as [|[a t] m1 IH]; intros [|[b r] m2]; simpl;
    try discriminate; auto.
  intros [= -> H]. rewrite !map_has_cons. now rewrite (IH m2).
Qed.

Lemma keys_distinct_keys (m1 m2 : registry) :
  map fst m1 = map fst m2 -> keys_distinct m1 = keys_distinct m2.
Proof.
  revert m2. induction m1 as [|[a t] m1 IH]; intros [|[b r] m2]; simpl;
    try discriminate; auto.
  intros [= -> H]. now rewrite (IH m2 H), (map_has_keys m1 m2 b H).
Qed.

Lemma on_disconnect_ok (h : handle) (m m' : registry) (out : list command) :
  registry_ok m = true -> on_disconnect h m = Returns m' out ->
  registry_ok m' = true.
Proof.
  intros Hm. unfold on_disconnect.
  destruct (disconnect_scan h m) as [[[u s'] m1]|] eqn:F.
  2: { now intros [= <- _]. }
  apply disconnect_scan_Some in F as (pre & s & post & -> & _ & _ & -> & ->).
  destruct (template_throws u); try discriminate.
  unfold registry_ok in Hm. apply andb_true_iff in Hm as [Hk Hf].
  assert (Hk' : keys_distinct (pre ++ (u, set_delete h s) :: post) = true).
  { rewrite <- Hk. apply keys_distinct_keys. rewrite !map_app. reflexivity. }
  rewrite forallb_app in Hf. simpl in Hf.
  apply andb_true_iff in Hf as [Hpre Hf]. apply andb_true_iff in Hf as [Hu Hpost].
  destruct (List.length (set_delete h s) =? 0)%nat eqn:El.
  - assert (registry_ok (map_delete u (pre ++ (u, set_delete h s) :: post))
            = true) as Hok.
    { rewrite map_delete_app_absent
        by (eapply keys_distinct_app_absent; eassumption).
      unfold registry_ok. rewrite forallb_app, Hpre, Hpost. simpl.
      rewrite andb_true_r.
      rewrite <- (map_delete_app_absent pre post u s)
        by (eapply keys_distinct_app_absent; eassumption).
      now apply keys_distinct_delete. }
    destruct (truthy u); now intros [= <- _].
  - intros [= <- _]. unfold registry_ok. rewrite Hk'. simpl.
    rewrite forallb_app, Hpre. simpl. rewrite Hpost, andb_true_r.
    unfold entry_ok in *. simpl in *. rewrite El. simpl.
    rewrite !andb_true_iff in Hu. destruct Hu as [[[H1 H2] _] H4].
    rewrite H1, H2. simpl. now apply set_ok_delete.
Qed.

Lemma map_set_app_absent (pre post : registry) (u : value)
    (s s' : socket_set) :
  map_get u pre = None ->
  map_set u s' (pre ++ (u, s) :: post) = pre ++ (u, s') :: post.
Proof.
  induction pre as [|[a t] pre IH]; simpl.
  - now rewrite same_value_zero_refl.
  - destruct (same_value_zero a u); try discriminate.
    intros H. now rewrite IH.
Qed.

Lemma on_disconnect_absent (h : handle) (m : registry) :
  owner h m = None -> on_disconnect h m = Returns m [].
Proof.
  intros H. apply owner_None in H. unfold on_disconnect. now rewrite H.
Qed.

(** In a registry that satisfies the invariant the listener removes the
    socket from its owner's set, and drops the owner and announces it
    offline exactly when that leaves the set empty. *)
Lemma on_disconnect_owner (h : handle) (m : registry) (u : value)
    (s : socket_set) :
  registry_ok m = true -> owner h m = Some (u, s) ->
  on_disconnect h m =
  if (List.length (set_delete h s) =? 0)%nat
  then Returns (map_delete u m) [io_emit (user_offline u)]
  else Returns (map_set u (set_delete h s) m) [].
Proof.
  intros Hm Ho. destruct (owner_Some _ _ _ _ Ho) as [m' Hscan].
  unfold on_disconnect. rewrite Hscan.
  apply disconnect_scan_Some in Hscan
    as (pre & s0 & post & -> & _ & _ & Hs & ->).
  unfold registry_ok in Hm. apply andb_true_iff in Hm as [Hk Hf].
  pose proof (keys_distinct_app_absent _ _ _ _ Hk) as Hpre.
  rewrite forallb_app in Hf. simpl in Hf.
  apply andb_true_iff in Hf as [_ Hf]. apply andb_true_iff in Hf as [Hu _].
  unfold entry_ok in Hu. simpl in Hu. rewrite !andb_true_iff in Hu.
  destruct Hu as [[[H1 H2] _] _]. apply negb_true_iff in H2.
  rewrite H1, H2.
  rewrite !map_delete_app_absent, map_set_app_absent by assumption.
  reflexivity.
Qed.

(** ** The listeners that only relay *)

Ltac relay_case :=
  repeat match goal with
    | |- context [if ?b then _ else _] => destruct b
    | |- context [match map_get ?k ?m with _ => _ end] =>
        destruct (map_get k m)
    end;
  try discriminate; try (intros [= <- _]; reflexivity).

Lemma on_typing_registry (p : value) (m m' : registry) (out : list command) :
  on_typing p m = Returns m' out -> m' = m.
Proof. unfold on_typing. relay_case. Qed.

Lemma on_stop_typing_registry (p : value) (m m' : registry)
    (out : list command) :
  on_stop_typing p m = Returns m' out -> m' = m.
Proof. unfold on_stop_typing. relay_case. Qed.

Lemma on_send_message_registry (p : value) (m m' : registry)
    (out : list command) :
  on_send_message p m = Returns m' out -> m' = m.
Proof. unfold on_send_message. relay_case. Qed.

Lemma on_send_media_registry (p : value) (m m' : registry)
    (out : list command) :
  on_send_media p m = Returns m' out -> m' = m.
Proof. unfold on_send_media. relay_case. Qed.

Lemma on_webrtc_offer_registry (h : handle) (p : value) (m m' : registry)
    (out : list command) :
  on_webrtc_offer h p m = Returns m' out -> m' = m.
Proof. unfold on_webrtc_offer. relay_case. Qed.

Lemma on_webrtc_answer_registry (h : handle) (p : value) (m m' : registry)
    (out : list command) :
  on_webrtc_answer h p m = Returns m' out -> m' = m.
Proof. unfold on_webrtc_answer. relay_case. Qed.

Lemma on_webrtc_ice_registry (p : value) (m m' : registry)
    (out : list command) :
  on_webrtc_ice p m = Returns m' out -> m' = m.
Proof. unfold on_webrtc_ice. relay_case. Qed.

(** ** Every listener keeps the invariant *)

Lemma listener_ok (h : handle) (event : string) (payload : value)
    (m m' : registry) (out : list command) :
  registry_ok m = true -> listener h event payload m = Returns m' out ->
  registry_ok m' = true.
Proof.
  intros Hm. unfold listener.
  repeat match goal with
    | |- context [if (event =? ?n)%string then _ else _] =>
        destruct (event =? n)%string
    end.
  - now apply on_register_ok.
  - now intros [= <- _].
  - now apply on_disconnect_ok.
  - intros H. now rewrite (on_typing_registry _ _ _ _ H).
  - intros H. now rewrite (on_stop_typing_registry _ _ _ _ H).
  - intros H. now rewrite (on_send_message_registry _ _ _ _ H).
  - intros H. now rewrite (on_send_media_registry _ _ _ _ H).
  - intros H. now rewrite (on_webrtc_offer_registry _ _ _ _ _ H).
  - intros H. now rewrite (on_webrtc_answer_registry _ _ _ _ _ H).
  - intros H. now rewrite (on_webrtc_ice_registry _ _ _ _ H).
  - now intros [= <- _].
  - now intros [= <- _].
Qed.

Lemma run_ok (events : list inbound) (m m' : registry) :
  registry_ok m = true -> run events m = Some m' -> registry_ok m' = true.
Proof.
  revert m. induction events as [|[[h event] payload] events IH]; simpl.
  - now intros m Hm [= <-].
  - intros m Hm.
    destruct (listener h event payload m) as [|m1 out] eqn:E; try discriminate.
    apply IH. eapply listener_ok; eassumption.
Qed.

Lemma reachable_ok (m : registry) : reachable m -> registry_ok m = true.
Proof.
  intros [events H]. eapply run_ok; [|exact H]. reflexivity.
Qed.

(** A key is there exactly when its set is not empty. *)
Lemma registry_ok_key_iff (m : registry) (userId : value) :
  registry_ok m = true ->
  (map_has userId m = true <-> connectionsOf userId m <> []).
Proof.
  unfold registry_ok, map_has, connectionsOf. rewrite andb_true_iff.
  intros [_ Hf]. induction m as [|[a t] m IH]; simpl in *.
  - split; [discriminate | congruence].
  - apply andb_true_iff in Hf as [Ha Hf].
    destruct (same_value_zero a userId); auto.
    unfold entry_ok in Ha. simpl in Ha. rewrite !andb_true_iff in Ha.
    destruct Ha as [[_ Hl] _]. split; auto.
    intros _ ->. discriminate.
Qed.

Lemma registry_ok_set_ok (m : registry) (userId : value) :
  registry_ok m = true -> set_ok (connectionsOf userId m) = true.
Proof.
  unfold registry_ok, connectionsOf. rewrite andb_true_iff. intros [_ Hf].
  induction m as [|[a t] m IH]; simpl in *; auto.
  apply andb_true_iff in Hf as [Ha Hf].
  destruct (same_value_zero a userId); auto.
  unfold entry_ok in Ha. simpl in Ha. now apply andb_true_iff in Ha as [_ Ha].
Qed.

(** In a [Map] the owner's entry is the one its key looks up. *)
Lemma owner_connectionsOf (h : handle) (m : registry) (u : value)
    (s : socket_set) :
  keys_distinct m = true -> owner h m = Some (u, s) ->
  connectionsOf u m = s /\ set_has h s = true.
Proof.
  intros Hk Ho. destruct (owner_Some _ _ _ _ Ho) as [m' Hscan].
  apply disconnect_scan_Some in Hscan
    as (pre & s0 & post & -> & Hpre & Hs & _ & _).
  assert (s0 = s) as ->.
  { clear Hk. unfold owner in Ho.
    induction pre as [|[a t] pre IH]; simpl in *.
    - rewrite Hs in Ho. now injection Ho.
    - apply andb_true_iff in Hpre as [Ha Hpre].
      apply negb_true_iff in Ha. rewrite Ha in Ho. auto. }
  split; auto.
  unfold connectionsOf. rewrite map_get_app.
  rewrite (keys_distinct_app_absent _ _ _ _ Hk). simpl.
  now rewrite same_value_zero_refl.
Qed.

Lemma owner_None_iff (h : handle) (m : registry) :
  keys_distinct m = true ->
  (owner h m = None <->
   forall userId, set_has h (connectionsOf userId m) = false).
Proof.
  intros Hk. split.
  - intros Ho u. apply owner_None, disconnect_scan_None in Ho.
    unfold connectionsOf. clear Hk.
    induction m as [|[a t] m IH]; simpl in *; auto.
    apply andb_true_iff in Ho as [Ha Ho]. apply negb_true_iff in Ha.
    destruct (same_value_zero a u); auto.
  - intros Hall. destruct (owner h m) as [[u s]|] eqn:Ho; auto.
    destruct (owner_connectionsOf _ _ _ _ Hk Ho) as [Hc Hs].
    specialize (Hall u). rewrite Hc in Hall. congruence.
Qed.

(** A set that deleting [h] empties held [h] alone. *)
Lemma set_delete_nil (h : handle) (s : socket_set) :
  set_ok s = true -> set_has h s = true ->
  ((List.length (set_delete h s) =? 0)%nat = true <-> s = [h]).
Proof.
  intros Hok Hin. split.
  - intros Hl. apply Nat.eqb_eq, length_zero_iff_nil in Hl.
    assert (Hall : forall x, In x s -> x = h).
    { intros x Hx. destruct (string_dec x h) as [|Hne]; auto.
      assert (In x (set_delete h s)) as Hd.
      { unfold set_delete. apply filter_In. split; auto.
        apply negb_true_iff, String.eqb_neq. exact Hne. }
      rewrite Hl in Hd. destruct Hd. }
    destruct s as [|x [|y s]].
    + discriminate.
    + now rewrite (Hall x (or_introl eq_refl)).
    + apply set_ok_NoDup in Hok. inversion Hok as [|? ? Hx _]; subst.
      exfalso. apply Hx. left.
      rewrite (Hall x), (Hall y); simpl; auto.
  - intros ->. unfold set_delete. simpl. now rewrite String.eqb_refl.
Qed.

(** ** Delivery *)

Lemma received_by_app (h : handle) (d1 d2 : list (handle * out_event)) :
  received_by h (d1 ++ d2) = received_by h d1 ++ received_by h d2.
Proof. unfold received_by. now rewrite filter_app, map_app. Qed.

(** A broadcast gives every connected socket the event once. *)
Lemma received_by_io_emit (h self : handle) (e : out_event)
    (sockets : list handle) :
  set_ok sockets = true ->
  received_by h (deliver sockets self (io_emit e)) =
  if set_has h sockets then [e] else [].
Proof.
  simpl. induction sockets as [|x r IH]; simpl; auto.
  rewrite andb_true_iff, negb_true_iff. intros [Hx Hr].
  unfold received_by in *. simpl.
  destruct (x =? h)%string eqn:E; simpl.
  - apply String.eqb_eq in E. subst x. rewrite (IH Hr), Hx. reflexivity.
  - now rewrite (IH Hr).
Qed.

(** What the socket itself is sent reaches it alone. *)
Lemma received_by_socket_emits (h self : handle) (sockets : list handle)
    (es : list out_event) :
  received_by h (deliveries sockets self (map socket_emit es)) =
  if set_has self sockets && (self =? h)%string then es else [].
Proof.
  unfold deliveries, received_by.
  induction es as [|e es IH]; simpl.
  - now destruct (set_has self sockets && (self =? h)%string).
  - destruct (set_has self sockets); simpl in *; auto.
    destruct (self =? h)%string; simpl in *; now rewrite IH.
Qed.

(** A fan-out over a set gives each of its connected sockets the event
    once, and nobody else anything. *)
Lemma received_by_fanout (h self : handle) (sockets : list handle)
    (e : out_event) (targets : socket_set) :
  set_ok targets = true ->
  received_by h
    (deliveries sockets self
       (map (fun socketId => io_to_emit (VStr socketId) e) targets)) =
  if set_has h targets && set_has h sockets then [e] else [].
Proof.
  unfold deliveries. induction targets as [|x r IH]; simpl; auto.
  rewrite andb_true_iff, negb_true_iff. intros [Hx Hr].
  rewrite received_by_app, (IH Hr).
  destruct (x =? h)%string eqn:E; simpl.
  - apply String.eqb_eq in E. subst x. rewrite Hx. simpl.
    destruct (set_has h sockets); unfold received_by; simpl; auto.
    now rewrite String.eqb_refl.
  - destruct (set_has x sockets); unfold received_by; simpl; auto.
    now rewrite E.
Qed.

(** ** Registering twice *)

Lemma connectionsOf_registered (h : handle) (userId : value) (m : registry) :
  connectionsOf userId (registered h userId m) =
  set_add h (connectionsOf userId m).
Proof.
  unfold registered. unfold connectionsOf at 1.
  now rewrite map_get_set_same.
Qed.

Lemma registered_idem (h : handle) (userId : value) (m : registry) :
  registered h userId (registered h userId m) = registered h userId m.
Proof.
  unfold registered at 1. rewrite connectionsOf_registered, set_add_idem.
  unfold registered. apply map_set_set.
Qed.

Lemma truthy_str (s : string) : truthy (VStr s) = true <-> s <> "".
Proof.
  simpl. rewrite negb_true_iff. apply String.eqb_neq.
Qed.

Lemma strict_equals_str (o : value) (s : string) :
  strict_equals o (VStr s) = true <-> o = VStr s.
Proof.
  destruct o; simpl; split; try discriminate.
  - intros H. apply String.eqb_eq in H. now subst.
  - intros [= ->]. apply String.eqb_refl.
Qed.

(** ** The guards of the relay listeners *)

(** A property that is not there fails the guard like a falsy one. *)
Lemma missing_falsy (p : value) (name : string) :
  prop p name = VUndefined -> truthy (prop p name) = false.
Proof. now intros ->. Qed.

Lemma on_typing_dropped (p : value) (m : registry) :
  nullish p = false ->
  truthy (prop p "senderId") = false \/ truthy (prop p "receiverId") = false ->
  on_typing p m = Returns m [].
Proof.
  intros Hn H. unfold on_typing. rewrite Hn.
  destruct H as [-> | ->]; simpl; auto. now rewrite orb_true_r.
Qed.

Lemma on_stop_typing_dropped (p : value) (m : registry) :
  nullish p = false ->
  truthy (prop p "senderId") = false \/ truthy (prop p "receiverId") = false ->
  on_stop_typing p m = Returns m [].
Proof.
  intros Hn H. unfold on_stop_typing. rewrite Hn.
  destruct H as [-> | ->]; simpl; auto. now rewrite orb_true_r.
Qed.

Lemma on_send_message_dropped (p : value) (m : registry) :
  nullish p = false ->
  truthy (prop p "senderId") = false \/ truthy (prop p "receiverId") = false
  \/ truthy (prop p "content") = false ->
  on_send_message p m = Returns m [].
Proof.
  intros Hn H. unfold on_send_message. rewrite Hn.
  destruct H as [-> | [-> | ->]]; simpl; auto;
    now rewrite ?orb_true_r.
Qed.

Lemma on_send_media_dropped (p : value) (m : registry) :
  nullish p = false ->
  truthy (prop p "senderId") = false \/ truthy (prop p "receiverId") = false
  \/ truthy (prop p "mediaType") = false ->
  on_send_media p m = Returns m [].
Proof.
  intros Hn H. unfold on_send_media. rewrite Hn.
  destruct H as [-> | [-> | ->]]; simpl; auto;
    now rewrite ?orb_true_r.
Qed.

Lemma truthy_not_nullish (p : value) (name : string) :
  truthy (prop p name) = true -> nullish p = false.
Proof. destruct p; simpl; auto; discriminate. Qed.

(** * The registry *)

(** C1.  After any number of events of any run from the empty registry, a
    userId is a key of [connectedUsers] exactly when its set of handles is
    not empty; and a disconnect that empties the set of the user it finds
    deletes that user's key. *)
Theorem key_present_iff_set_nonempty :
  forall (events : list inbound) (n : nat) (connectedUsers : registry),
    run (firstn n events) [] = Some connectedUsers ->
    (forall userId,
        map_has userId connectedUsers = true <->
        connectionsOf userId connectedUsers <> [])
    /\
    (forall socket_id userId sockets,
        owner socket_id connectedUsers = Some (userId, sockets) ->
        set_delete socket_id sockets = [] ->
        exists emitted,
          on_disconnect socket_id connectedUsers =
            Returns (map_delete userId connectedUsers) emitted /\
          map_has userId (map_delete userId connectedUsers) = false).
Proof.
  intros events n m Hrun.
  assert (Hok : registry_ok m = true) by (eapply run_ok; [|exact Hrun]; auto).
  split.
  - intros u. now apply registry_ok_key_iff.
  - intros h u s Ho Hd. rewrite (on_disconnect_owner _ _ _ _ Hok Ho), Hd.
    simpl. eexists. split; [reflexivity|].
    apply map_has_delete_same.
    unfold registry_ok in Hok. now apply andb_true_iff in Hok as [Hk _].
Qed.

Lemma key_present_iff_set_nonempty_witness :
  let events : list inbound :=
    [("h1", "register", VStr "alice"); ("h2", "register", VStr "bob");
     ("h1", "disconnect", VUndefined)] in
  let connectedUsers := [(VStr "alice", ["h1"]); (VStr "bob", ["h2"])] in
  run (firstn 2 events) [] = Some connectedUsers /\
  (map_has (VStr "alice") connectedUsers = true <->
   connectionsOf (VStr "alice") connectedUsers <> []) /\
  (exists emitted,
      on_disconnect "h1" connectedUsers =
        Returns (map_delete (VStr "alice") connectedUsers) emitted /\
      map_has (VStr "alice") (map_delete (VStr "alice") connectedUsers)
      = false).
Proof.
  intros events connectedUsers.
  assert (H : run (firstn 2 events) [] = Some connectedUsers) by reflexivity.
  split; [exact H|].
  destruct (key_present_iff_set_nonempty events 2 connectedUsers H)
    as [Hiff Hdel].
  split; [apply Hiff|].
  apply (Hdel "h1" (VStr "alice") ["h1"]); reflexivity.
Defined.

(** C2.  The code at the failing input: a socket that registers as "A" and
    then as "B" is in both users' sets, and its disconnect, which stops at
    the first set that has it, leaves it in the other. *)
Theorem reregistration_keeps_both_owners :
  run [("h1", "register", VStr "A"); ("h1", "register", VStr "B")] [] =
    Some [(VStr "A", ["h1"]); (VStr "B", ["h1"])]
  /\
  run [("h1", "register", VStr "A"); ("h1", "register", VStr "B");
       ("h1", "disconnect", VUndefined)] [] =
    Some [(VStr "B", ["h1"])].
Proof. split; reflexivity. Qed.

(** C3.  The code at the failing input.  Socket h0 registers as "A", socket
    h1 registers as "A" and then as "B": h1 is the only handle of "B".  The
    disconnect of h1 stops at "A", the first set that has it: no
    [user_offline] is emitted, for "B" or for anybody, nothing is delivered,
    and "B" stays a key with the dead handle as its only one. *)
Theorem last_handle_of_second_owner_not_announced :
  let connectedUsers := [(VStr "A", ["h0"; "h1"]); (VStr "B", ["h1"])] in
  run [("h0", "register", VStr "A"); ("h1", "register", VStr "A");
       ("h1", "register", VStr "B")] [] = Some connectedUsers /\
  connectionsOf (VStr "B") connectedUsers = ["h1"] /\
  on_disconnect "h1" connectedUsers =
    Returns [(VStr "A", ["h0"]); (VStr "B", ["h1"])] [] /\
  deliveries ["h0"] "h1" [] = [] /\
  map_has (VStr "B") [(VStr "A", ["h0"]); (VStr "B", ["h1"])] = true /\
  connectionsOf (VStr "B") [(VStr "A", ["h0"]); (VStr "B", ["h1"])] = ["h1"].
Proof. repeat split. Qed.

(** X19.  In a reachable registry, when the first userId, in insertion
    order, whose set has the disconnecting handle has that handle alone,
    the disconnect emits one [user_offline] broadcast for that user, which
    every connected socket receives once, and removes the user's key; the
    disconnect of a handle that is in nobody's set returns the registry as
    it was and emits nothing.  When that first userId has other handles
    left, nothing is emitted and the key stays. *)
Theorem last_disconnect_announces_offline_once :
  forall (connectedUsers : registry) (socket_id : handle),
    reachable connectedUsers ->
    (forall userId,
        owner socket_id connectedUsers = Some (userId, [socket_id]) ->
        on_disconnect socket_id connectedUsers =
          Returns (map_delete userId connectedUsers)
            [io_emit (user_offline userId)] /\
        map_has userId (map_delete userId connectedUsers) = false /\
        forall sockets h,
          set_ok sockets = true ->
          received_by h
            (deliveries sockets socket_id [io_emit (user_offline userId)]) =
          if set_has h sockets then [user_offline userId] else [])
    /\
    ((forall userId,
         set_has socket_id (connectionsOf userId connectedUsers) = false) ->
     on_disconnect socket_id connectedUsers = Returns connectedUsers [])
    /\
    (forall userId sockets,
        owner socket_id connectedUsers = Some (userId, sockets) ->
        sockets <> [socket_id] ->
        on_disconnect socket_id connectedUsers =
          Returns (map_set userId (set_delete socket_id sockets) connectedUsers)
            [] /\
        map_has userId
          (map_set userId (set_delete socket_id sockets) connectedUsers)
        = true).
Proof.
  intros m h Hreach. pose proof (reachable_ok _ Hreach) as Hok.
  assert (Hk : keys_distinct m = true).
  { unfold registry_ok in Hok. now apply andb_true_iff in Hok as [Hk _]. }
  split; [|split].
  - intros u Ho. rewrite (on_disconnect_owner _ _ _ _ Hok Ho).
    unfold set_delete. simpl. rewrite String.eqb_refl. simpl.
    split; [reflexivity|]. split; [now apply map_has_delete_same|].
    intros sockets x Hs. unfold deliveries. simpl. rewrite app_nil_r.
    now apply (received_by_io_emit x h).
  - intros Hall. apply on_disconnect_absent. now apply owner_None_iff.
  - intros u s Ho Hne. rewrite (on_disconnect_owner _ _ _ _ Hok Ho).
    destruct (owner_connectionsOf _ _ _ _ Hk Ho) as [Hc Hs].
    pose proof (registry_ok_set_ok m u Hok) as Hsok. rewrite Hc in Hsok.
    destruct (List.length (set_delete h s) =? 0)%nat eqn:El.
    + apply (set_delete_nil h s Hsok Hs) in El. contradiction.
    + split; [reflexivity|]. rewrite map_has_set.
      now rewrite same_value_zero_refl.
Qed.

Lemma last_disconnect_announces_offline_once_witness :
  let connectedUsers := [(VStr "alice", ["h1"]); (VStr "bob", ["h2"])] in
  reachable connectedUsers /\
  on_disconnect "h2" connectedUsers =
    Returns [(VStr "alice", ["h1"])] [io_emit (user_offline (VStr "bob"))] /\
  on_disconnect "h9" connectedUsers = Returns connectedUsers [].
Proof.
  intros connectedUsers.
  assert (Hreach : reachable connectedUsers).
  { exists [("h1", "register", VStr "alice"); ("h2", "register", VStr "bob")].
    reflexivity. }
  split; [exact Hreach|].
  destruct (last_disconnect_announces_offline_once connectedUsers "h2" Hreach)
    as [Hlast _].
  destruct (last_disconnect_announces_offline_once connectedUsers "h9" Hreach)
    as [_ [Habsent _]].
  split.
  - destruct (Hlast (VStr "bob") eq_refl) as [H _]. exact H.
  - apply Habsent. intros u. unfold connectionsOf.
    change (map_get u connectedUsers)
      with (if same_value_zero (VStr "alice") u then Some ["h1"]
            else if same_value_zero (VStr "bob") u then Some ["h2"]
                 else None).
    destruct (same_value_zero (VStr "alice") u); [reflexivity|].
    destruct (same_value_zero (VStr "bob") u); reflexivity.
Defined.

(** * Relays *)

(** C4, at the input where the claim fails: the payload has senderId,
    receiverId and content, the receiver has one handle, and the empty
    content stops the listener at its guard: nothing is emitted and the
    receiver's connected handle receives nothing. *)
Lemma send_message_empty_content_not_relayed :
  let payload :=
    VObj 0 [("senderId", VStr "alice"); ("receiverId", VStr "bob");
            ("content", VStr "")] in
  let connectedUsers := [(VStr "alice", ["h1"]); (VStr "bob", ["h2"])] in
  own "senderId" [("senderId", VStr "alice"); ("receiverId", VStr "bob");
                  ("content", VStr "")] = Some (VStr "alice") /\
  own "receiverId" [("senderId", VStr "alice"); ("receiverId", VStr "bob");
                    ("content", VStr "")] = Some (VStr "bob") /\
  own "content" [("senderId", VStr "alice"); ("receiverId", VStr "bob");
                 ("content", VStr "")] = Some (VStr "") /\
  connectionsOf (VStr "bob") connectedUsers = ["h2"] /\
  on_send_message payload connectedUsers = Returns connectedUsers [] /\
  received_by "h2" (deliveries ["h1"; "h2"] "h1" []) = [].
Proof. repeat split. Qed.

(** C4, amended.  When senderId, receiverId and content all pass the
    guard (none is missing or falsy), the listener emits one
    [receive_message] with the payload's senderId, content, messageId and
    createdAt to each handle of the receiver's set and to no other room, and
    returns; in a reachable registry each connected handle of the receiver
    receives that event once and every other socket nothing; with no key
    for the receiver nothing is emitted. *)
Theorem send_message_fans_out_to_receiver :
  forall (payload : value) (connectedUsers : registry),
    truthy (prop payload "senderId") = true ->
    truthy (prop payload "receiverId") = true ->
    truthy (prop payload "content") = true ->
    let receiverSockets :=
      connectionsOf (prop payload "receiverId") connectedUsers in
    let event :=
      receive_message (prop payload "senderId") (prop payload "content")
        (prop payload "messageId") (prop payload "createdAt") in
    let emitted :=
      map (fun socketId => io_to_emit (VStr socketId) event) receiverSockets in
    on_send_message payload connectedUsers = Returns connectedUsers emitted /\
    (reachable connectedUsers ->
     forall sockets self h,
       received_by h (deliveries sockets self emitted) =
       if set_has h receiverSockets && set_has h sockets then [event] else [])
    /\
    (map_has (prop payload "receiverId") connectedUsers = false ->
     emitted = []).
Proof.
  intros p m Hs Hr Hc rs event emitted. split; [|split].
  - unfold on_send_message. rewrite (truthy_not_nullish _ _ Hs), Hs, Hr, Hc.
    simpl. subst emitted rs event. unfold connectionsOf.
    now destruct (map_get (prop p "receiverId") m).
  - intros Hreach sockets self h. apply received_by_fanout.
    apply registry_ok_set_ok. now apply reachable_ok.
  - intros Hno. subst emitted rs. unfold connectionsOf, map_has in *.
    now destruct (map_get (prop p "receiverId") m).
Qed.

Lemma send_message_fans_out_to_receiver_witness :
  let payload :=
    VObj 0 [("senderId", VStr "alice"); ("receiverId", VStr "bob");
            ("content", VStr "hi")] in
  let connectedUsers :=
    [(VStr "alice", ["h1"]); (VStr "bob", ["h2"; "h3"])] in
  let event :=
    receive_message (VStr "alice") (VStr "hi") VUndefined VUndefined in
  on_send_message payload connectedUsers =
    Returns connectedUsers
      [io_to_emit (VStr "h2") event; io_to_emit (VStr "h3") event].
Proof.
  intros payload connectedUsers event.
  apply (send_message_fans_out_to_receiver payload connectedUsers);
    reflexivity.
Defined.

(** C7.  The code at the failing input.  An event that comes with no
    payload, or with [null], has none of the fields the relay listeners
    require; the four listeners do not drop it: each throws while it
    destructures its parameter, before its guard, whatever the registry
    holds. *)
Theorem payload_without_fields_throws :
  forall (connectedUsers : registry),
    (prop VUndefined "senderId" = VUndefined /\
     prop VUndefined "receiverId" = VUndefined /\
     prop VUndefined "content" = VUndefined /\
     prop VUndefined "mediaType" = VUndefined /\
     on_typing VUndefined connectedUsers = Throws /\
     on_stop_typing VUndefined connectedUsers = Throws /\
     on_send_message VUndefined connectedUsers = Throws /\
     on_send_media VUndefined connectedUsers = Throws)
    /\
    (prop VNull "senderId" = VUndefined /\
     prop VNull "receiverId" = VUndefined /\
     prop VNull "content" = VUndefined /\
     prop VNull "mediaType" = VUndefined /\
     on_typing VNull connectedUsers = Throws /\
     on_stop_typing VNull connectedUsers = Throws /\
     on_send_message VNull connectedUsers = Throws /\
     on_send_media VNull connectedUsers = Throws).
Proof. intros m. repeat split. Qed.

(** X20.  For each relay kind, a payload other than [undefined] and
    [null] that lacks a field its guard reads -- senderId or receiverId,
    content for send_message, mediaType for send_media -- makes the
    listener return with the registry as it was and nothing emitted,
    whatever the registry holds; nothing is delivered. *)
Theorem missing_field_dropped :
  forall (payload : value) (connectedUsers : registry),
    nullish payload = false ->
    let missing name := prop payload name = VUndefined in
    (missing "senderId" \/ missing "receiverId" ->
     on_typing payload connectedUsers = Returns connectedUsers [] /\
     on_stop_typing payload connectedUsers = Returns connectedUsers [])
    /\
    (missing "senderId" \/ missing "receiverId" \/ missing "content" ->
     on_send_message payload connectedUsers = Returns connectedUsers [])
    /\
    (missing "senderId" \/ missing "receiverId" \/ missing "mediaType" ->
     on_send_media payload connectedUsers = Returns connectedUsers [])
    /\
    (forall sockets self, deliveries sockets self [] = []).
Proof.
  intros p m Hn missing. unfold missing.
  split; [|split; [|split]].
  - intros H. split.
    + apply on_typing_dropped; auto. destruct H; auto using missing_falsy.
    + apply on_stop_typing_dropped; auto.
      destruct H; auto using missing_falsy.
  - intros H. apply on_send_message_dropped; auto.
    destruct H as [H | [H | H]]; auto using missing_falsy.
  - intros H. apply on_send_media_dropped; auto.
    destruct H as [H | [H | H]]; auto using missing_falsy.
  - reflexivity.
Qed.

Lemma missing_field_dropped_witness :
  let payload := VObj 0 [("senderId", VStr "alice"); ("content", VStr "hi")] in
  let connectedUsers := [(VStr "bob", ["h2"])] in
  nullish payload = false /\
  on_typing payload connectedUsers = Returns connectedUsers [] /\
  on_send_message payload connectedUsers = Returns connectedUsers [] /\
  on_send_media payload connectedUsers = Returns connectedUsers [].
Proof.
  intros payload connectedUsers.
  destruct (missing_field_dropped payload connectedUsers eq_refl)
    as [Ht [Hm [Hd _]]].
  split; [reflexivity|]. split; [|split].
  - apply Ht. right. reflexivity.
  - apply Hm. right. left. reflexivity.
  - apply Hd. right. left. reflexivity.
Defined.

(** C10.  A required field that is there but falsy stops the relay
    listeners as a missing one does: the listener returns with the registry
    as it was and nothing emitted.  So it is for send_message with the empty
    string as content and for send_media with the empty string as
    mediaType. *)
Theorem falsy_field_dropped :
  forall (ref : nat) (fields : list (string * value))
         (connectedUsers : registry),
    let payload := VObj ref fields in
    let falsy name :=
      exists v, own name fields = Some v /\ truthy v = false in
    (falsy "senderId" \/ falsy "receiverId" ->
     on_typing payload connectedUsers = Returns connectedUsers [] /\
     on_stop_typing payload connectedUsers = Returns connectedUsers [])
    /\
    (falsy "senderId" \/ falsy "receiverId" \/ falsy "content" ->
     on_send_message payload connectedUsers = Returns connectedUsers [])
    /\
    (falsy "senderId" \/ falsy "receiverId" \/ falsy "mediaType" ->
     on_send_media payload connectedUsers = Returns connectedUsers [])
    /\
    (own "content" fields = Some (VStr "") ->
     on_send_message payload connectedUsers = Returns connectedUsers [])
    /\
    (own "mediaType" fields = Some (VStr "") ->
     on_send_media payload connectedUsers = Returns connectedUsers []).
Proof.
  intros ref fields m payload falsy.
  assert (Hf : forall name, falsy name -> truthy (prop payload name) = false).
  { intros name [v [Hv Ht]]. subst payload. simpl. now rewrite Hv. }
  split; [|split; [|split; [|split]]].
  - intros H. split.
    + apply on_typing_dropped; auto. destruct H; auto.
    + apply on_stop_typing_dropped; auto. destruct H; auto.
  - intros H. apply on_send_message_dropped; auto.
    destruct H as [H | [H | H]]; auto.
  - intros H. apply on_send_media_dropped; auto.
    destruct H as [H | [H | H]]; auto.
  - intros H. apply on_send_message_dropped; auto.
    right. right. subst payload. simpl. now rewrite H.
  - intros H. apply on_send_media_dropped; auto.
    right. right. subst payload. simpl. now rewrite H.
Qed.

Lemma falsy_field_dropped_witness :
  let message :=
    [("senderId", VStr "alice"); ("receiverId", VStr "bob");
     ("content", VStr "")] in
  let media :=
    [("senderId", VStr "alice"); ("receiverId", VStr "bob");
     ("mediaType", VStr ""); ("data", VStr "AAAA")] in
  let connectedUsers := [(VStr "bob", ["h2"])] in
  on_send_message (VObj 0 message) connectedUsers = Returns connectedUsers []
  /\ on_send_media (VObj 1 media) connectedUsers = Returns connectedUsers [].
Proof.
  intros message media connectedUsers. split.
  - destruct (falsy_field_dropped 0 message connectedUsers)
      as [_ [_ [_ [H _]]]].
    apply H. reflexivity.
  - destruct (falsy_field_dropped 1 media connectedUsers)
      as [_ [_ [_ [_ H]]]].
    apply H. reflexivity.
Defined.

(** C8.  The code at the failing input: every listener that destructures
    its payload in its parameter list throws when the event comes with no
    payload or with [null], before any of its guards runs; and the register
    listener throws in its log line, after it has written the registry, on
    an object whose [toString] is not a function. *)
Theorem nullish_payload_throws :
  forall (socket_id : handle) (connectedUsers : registry) (payload : value),
    payload = VUndefined \/ payload = VNull ->
    listener socket_id "typing" payload connectedUsers = Throws /\
    listener socket_id "stop_typing" payload connectedUsers = Throws /\
    listener socket_id "send_message" payload connectedUsers = Throws /\
    listener socket_id "send_media" payload connectedUsers = Throws /\
    listener socket_id "webrtc_offer" payload connectedUsers = Throws /\
    listener socket_id "webrtc_answer" payload connectedUsers = Throws /\
    listener socket_id "webrtc_ice" payload connectedUsers = Throws /\
    listener socket_id "register" (VObj 0 [("toString", VNum 1)])
      connectedUsers = Throws.
Proof.
  intros h m p [-> | ->]; repeat split;
    unfold listener; simpl; unfold on_register; simpl;
    unfold map_has; destruct (map_get _ m) eqn:E; simpl;
    rewrite ?E, ?map_get_set_same; reflexivity.
Qed.

Lemma nullish_payload_throws_witness :
  listener "h1" "typing" VNull [(VStr "bob", ["h2"])] = Throws /\
  listener "h1" "send_message" VUndefined [(VStr "bob", ["h2"])] = Throws.
Proof.
  destruct (nullish_payload_throws "h1" [(VStr "bob", ["h2"])] VNull
              (or_intror eq_refl)) as [H1 _].
  destruct (nullish_payload_throws "h1" [(VStr "bob", ["h2"])] VUndefined
              (or_introl eq_refl)) as [_ [_ [H3 _]]].
  split; assumption.
Defined.

(** * Presence *)

(** C5.  A register event with a non-empty userId, whatever the registry
    already holds for that user, returns after exactly these emissions in
    this order: [user_online] for the userId to everybody, [online_users]
    with all the keys of the registry to the registering socket, and one
    [user_online] to the registering socket for each key other than the
    userId.  Every other connected socket receives the broadcast alone. *)
Theorem register_presence_sequence :
  forall (socket_id : handle) (userId : string) (connectedUsers : registry),
    userId <> "" ->
    let after := registered socket_id (VStr userId) connectedUsers in
    let onlineUserIds := map_keys after in
    let others :=
      filter (fun o => negb (strict_equals o (VStr userId))) onlineUserIds in
    let emitted :=
      io_emit (user_online (VStr userId))
      :: socket_emit (online_users onlineUserIds)
      :: map (fun o => socket_emit (user_online o)) others in
    on_register socket_id (VStr userId) connectedUsers = Returns after emitted
    /\
    (forall o, In o others <-> In o onlineUserIds /\ o <> VStr userId)
    /\
    (forall sockets h,
        set_ok sockets = true -> set_has socket_id sockets = true ->
        received_by h (deliveries sockets socket_id emitted) =
        if (socket_id =? h)%string
        then user_online (VStr userId) :: online_users onlineUserIds
             :: map user_online others
        else if set_has h sockets then [user_online (VStr userId)] else []).
Proof.
  intros h u m Hu after keys others emitted.
  apply truthy_str in Hu. split; [|split].
  - rewrite on_register_truthy by assumption. reflexivity.
  - intros o. subst others. rewrite filter_In, negb_true_iff.
    rewrite <- (strict_equals_str o u).
    destruct (strict_equals o (VStr u)); intuition congruence.
  - intros sockets x Hs Hin. subst emitted.
    change (deliveries sockets h
              (io_emit (user_online (VStr u))
               :: socket_emit (online_users keys)
               :: map (fun o => socket_emit (user_online o)) others))
      with (deliver sockets h (io_emit (user_online (VStr u)))
            ++ deliveries sockets h
                 (socket_emit (online_users keys)
                  :: map (fun o => socket_emit (user_online o)) others)).
    rewrite received_by_app, received_by_io_emit by assumption.
    replace (socket_emit (online_users keys)
             :: map (fun o => socket_emit (user_online o)) others)
      with (map socket_emit (online_users keys :: map user_online others))
      by (simpl; now rewrite map_map).
    rewrite received_by_socket_emits, Hin. simpl.
    destruct (h =? x)%string eqn:E.
    + apply String.eqb_eq in E. subst x. now rewrite Hin.
    + destruct (set_has x sockets); simpl; auto.
Qed.

Lemma register_presence_sequence_witness :
  on_register "h2" (VStr "bob") [(VStr "alice", ["h1"])] =
    Returns [(VStr "alice", ["h1"]); (VStr "bob", ["h2"])]
      [io_emit (user_online (VStr "bob"));
       socket_emit (online_users [VStr "alice"; VStr "bob"]);
       socket_emit (user_online (VStr "alice"))]
  /\
  on_register "h3" (VStr "bob")
    [(VStr "alice", ["h1"]); (VStr "bob", ["h2"])] =
    Returns [(VStr "alice", ["h1"]); (VStr "bob", ["h2"; "h3"])]
      [io_emit (user_online (VStr "bob"));
       socket_emit (online_users [VStr "alice"; VStr "bob"]);
       socket_emit (user_online (VStr "alice"))].
Proof.
  split.
  - apply (register_presence_sequence "h2" "bob" [(VStr "alice", ["h1"])]).
    discriminate.
  - apply (register_presence_sequence "h3" "bob"
             [(VStr "alice", ["h1"]); (VStr "bob", ["h2"])]).
    discriminate.
Defined.

(** C9.  Registering the same userId on the same socket twice in a row
    leaves the registry the first registration left, and makes the same
    emissions again; the user's set then holds the handle exactly once.
    With a string as userId the first registration always returns. *)
Theorem register_idempotent :
  forall (socket_id : handle) (userId : value) (connectedUsers : registry),
    reachable connectedUsers ->
    (forall once emitted,
        on_register socket_id userId connectedUsers = Returns once emitted ->
        on_register socket_id userId once = Returns once emitted /\
        (truthy userId = true ->
         count_occ string_dec (connectionsOf userId once) socket_id = 1))
    /\
    (forall s, userId = VStr s ->
       exists once emitted,
         on_register socket_id userId connectedUsers = Returns once emitted).
Proof.
  intros h u m Hreach. pose proof (reachable_ok _ Hreach) as Hok.
  split.
  - intros once emitted. destruct (truthy u) eqn:Ht.
    + rewrite on_register_truthy by assumption.
      destruct (template_throws u) eqn:Hs; try discriminate.
      intros [= <- <-]. split.
      * rewrite on_register_truthy, Hs, registered_idem by assumption.
        reflexivity.
      * intros _. apply set_ok_count.
        -- apply registry_ok_set_ok. now apply registry_ok_registered.
        -- rewrite connectionsOf_registered. apply set_has_add_same.
    + rewrite on_register_falsy by assumption. intros [= <- <-].
      rewrite on_register_falsy by assumption.
      split; [reflexivity | discriminate].
  - intros s ->. destruct (truthy (VStr s)) eqn:Ht.
    + rewrite on_register_truthy by assumption. simpl. eauto.
    + rewrite on_register_falsy by assumption. eauto.
Qed.

Lemma register_idempotent_witness :
  reachable [(VStr "alice", ["h1"])] /\
  on_register "h2" (VStr "alice") [(VStr "alice", ["h1"; "h2"])] =
    Returns [(VStr "alice", ["h1"; "h2"])]
      [io_emit (user_online (VStr "alice"));
       socket_emit (online_users [VStr "alice"])] /\
  count_occ string_dec
    (connectionsOf (VStr "alice") [(VStr "alice", ["h1"; "h2"])]) "h2" = 1.
Proof.
  assert (Hreach : reachable [(VStr "alice", ["h1"])]).
  { exists [("h1", "register", VStr "alice")]. reflexivity. }
  split; [exact Hreach|].
  destruct (register_idempotent "h2" (VStr "alice") [(VStr "alice", ["h1"])]
              Hreach) as [Htwice _].
  destruct (Htwice [(VStr "alice", ["h1"; "h2"])]
              [io_emit (user_online (VStr "alice"));
               socket_emit (online_users [VStr "alice"])] eq_refl)
    as [H1 H2].
  split; [exact H1 | apply H2; reflexivity].
Defined.

(** * Signaling *)

(** C6.  An offer that arrives on connection [c] is emitted only to
    handles of the receiver's set and every emission carries
    [senderSocketId = c] with the payload's senderId and offer; when the
    three fields pass the guard, every handle of the set gets one.  An
    answer whose senderSocketId is [c] is emitted to the room [c] without
    any use of the registry: it is delivered to [c] alone when [c] is
    connected, and to nobody, the listener returning all the same, when [c]
    is no longer connected. *)
Theorem answer_goes_to_offering_connection :
  forall (c : handle) (offer_payload : value) (connectedUsers : registry),
    nullish offer_payload = false ->
    let receiverId := prop offer_payload "receiverId" in
    let senderId := prop offer_payload "senderId" in
    let offer := prop offer_payload "offer" in
    (exists emitted,
        on_webrtc_offer c offer_payload connectedUsers =
          Returns connectedUsers emitted /\
        (forall cmd, In cmd emitted ->
           exists socketId,
             cmd = io_to_emit (VStr socketId) (webrtc_offer c senderId offer)
             /\ set_has socketId (connectionsOf receiverId connectedUsers)
                = true) /\
        (truthy receiverId = true -> truthy senderId = true ->
         truthy offer = true ->
         emitted =
         map (fun socketId =>
                io_to_emit (VStr socketId) (webrtc_offer c senderId offer))
           (connectionsOf receiverId connectedUsers)))
    /\
    (forall (answer_payload : value) (responder : handle)
            (later : registry) (sockets : list handle),
        prop answer_payload "senderSocketId" = VStr c ->
        let answer := prop answer_payload "answer" in
        exists emitted,
          on_webrtc_answer responder answer_payload later =
            Returns later emitted /\
          deliveries sockets responder emitted =
            (if truthy (VStr c) && truthy answer && set_has c sockets
             then [(c, webrtc_answer answer responder)]
             else []) /\
          (set_has c sockets = false ->
           deliveries sockets responder emitted = [])).
Proof.
  intros c p m Hn receiverId senderId offer. split.
  - unfold on_webrtc_offer. rewrite Hn.
    fold receiverId senderId offer.
    destruct (truthy receiverId) eqn:Hr, (truthy senderId) eqn:Hs,
      (truthy offer) eqn:Ho; simpl;
      try (exists []; split; [reflexivity|];
           split; [intros cmd []|discriminate]).
    unfold connectionsOf.
    destruct (map_get receiverId m) as [s|] eqn:E.
    + eexists. split; [reflexivity|]. split; [|reflexivity].
      intros cmd Hin. apply in_map_iff in Hin as [x [<- Hx]].
      exists x. split; auto. now apply set_has_In.
    + exists []. split; [reflexivity|]. split; [intros cmd []|reflexivity].
  - intros q responder later sockets Hc answer.
    unfold on_webrtc_answer.
    assert (Hq : nullish q = false).
    { destruct q; simpl in *; auto; discriminate. }
    rewrite Hq, Hc. fold answer.
    destruct (truthy (VStr c)) eqn:Htc, (truthy answer) eqn:Hta; simpl;
      try (exists []; repeat split; now rewrite ?andb_false_r).
    eexists. split; [reflexivity|]. unfold deliveries. simpl.
    destruct (set_has c sockets); simpl; split; auto. discriminate.
Qed.

Lemma answer_goes_to_offering_connection_witness :
  let offer_payload :=
    VObj 0 [("receiverId", VStr "bob"); ("senderId", VStr "alice");
            ("offer", VStr "sdp-offer")] in
  let answer_payload :=
    VObj 1 [("senderSocketId", VStr "h1"); ("answer", VStr "sdp-answer")] in
  let connectedUsers :=
    [(VStr "alice", ["h1"; "h4"]); (VStr "bob", ["h2"; "h3"])] in
  nullish offer_payload = false /\
  (exists emitted,
      on_webrtc_answer "h2" answer_payload connectedUsers =
        Returns connectedUsers emitted /\
      deliveries ["h1"; "h2"; "h3"; "h4"] "h2" emitted =
        [("h1", webrtc_answer (VStr "sdp-answer") "h2")]) /\
  (exists emitted,
      on_webrtc_answer "h2" answer_payload connectedUsers =
        Returns connectedUsers emitted /\
      deliveries ["h2"; "h3"; "h4"] "h2" emitted = []).
Proof.
  intros offer_payload answer_payload connectedUsers.
  destruct (answer_goes_to_offering_connection "h1" offer_payload
              connectedUsers eq_refl) as [_ Hanswer].
  split; [reflexivity|]. split.
  - destruct (Hanswer answer_payload "h2" connectedUsers
                ["h1"; "h2"; "h3"; "h4"] eq_refl) as [e [H1 [H2 _]]].
    exists e. split; [exact H1 | exact H2].
  - destruct (Hanswer answer_payload "h2" connectedUsers
                ["h2"; "h3"; "h4"] eq_refl) as [e [H1 [_ H3]]].
    exists e. split; [exact H1 | apply H3; reflexivity].
Defined.

(** * Further properties of the server *)

(** ** More on values, sets and maps *)

Lemma truthy_compat (a b : value) :
  same_value_zero a b = true -> truthy a = truthy b.
Proof.
  destruct a, b; simpl; try discriminate; auto.
  - intros H. apply Bool.eqb_prop in H. now subst.
  - intros H. apply Z.eqb_eq in H. now subst.
  - intros H. apply String.eqb_eq in H. now subst.
Qed.

Lemma same_value_zero_compat_r (a b c : value) :
  same_value_zero a b = true -> same_value_zero c a = same_value_zero c b.
Proof.
  intros H. rewrite (same_value_zero_sym c a), (same_value_zero_sym c b).
  now apply same_value_zero_compat.
Qed.

Lemma set_has_add (x h : handle) (s : socket_set) :
  set_has x (set_add h s) = set_has x s || (h =? x)%string.
Proof.
  unfold set_add. destruct (set_has h s) eqn:E.
  - destruct (h =? x)%string eqn:F.
    + apply String.eqb_eq in F. subst. now rewrite E.
    + now rewrite orb_false_r.
  - rewrite set_has_app. simpl. now rewrite orb_false_r.
Qed.

Lemma set_has_delete (h x : handle) (s : socket_set) :
  set_has x (set_delete h s) = set_has x s && negb (x =? h)%string.
Proof.
  destruct (set_has x (set_delete h s)) eqn:E.
  - apply set_has_In in E. unfold set_delete in E.
    apply filter_In in E as [Hin Hne]. apply set_has_In in Hin.
    now rewrite Hin, Hne.
  - destruct (set_has x s) eqn:F; auto. simpl.
    destruct (x =? h)%string eqn:G; auto. exfalso.
    apply set_has_false in E. apply E. unfold set_delete.
    apply filter_In. split; [now apply set_has_In | now rewrite G].
Qed.

Lemma set_delete_absent (h : handle) (s : socket_set) :
  set_has h s = false -> set_delete h s = s.
Proof.
  unfold set_delete. induction s as [|x s IH]; simpl; auto.
  rewrite orb_false_iff. intros [Hx Hs]. rewrite Hx. simpl. now rewrite IH.
Qed.

(** Taking out the element that was just added gives the set back. *)
Lemma set_delete_add (h : handle) (s : socket_set) :
  set_has h s = false -> set_delete h (set_add h s) = s.
Proof.
  intros H. unfold set_add. rewrite H. unfold set_delete.
  rewrite filter_app. simpl. rewrite String.eqb_refl. simpl.
  rewrite app_nil_r. now apply set_delete_absent.
Qed.

Lemma map_get_set (k u : value) (s : socket_set) (m : registry) :
  map_get k (map_set u s m) =
  if same_value_zero u k then Some s else map_get k m.
Proof.
  destruct (same_value_zero u k) eqn:E.
  - rewrite <- (map_get_compat u k _ E). apply map_get_set_same.
  - now apply map_get_set_other.
Qed.

Lemma map_get_delete_same (k u : value) (m : registry) :
  keys_distinct m = true -> same_value_zero u k = true ->
  map_get k (map_delete u m) = None.
Proof.
  intros Hk E. pose proof (map_has_delete_same u m Hk) as H.
  unfold map_has in H. rewrite (map_get_compat u k _ E) in H.
  now destruct (map_get k (map_delete u m)).
Qed.

Lemma map_get_delete_other (k u : value) (m : registry) :
  same_value_zero u k = false ->
  map_get k (map_delete u m) = map_get k m.
Proof.
  intros Hne. induction m as [|[a t] m IH]; simpl; auto.
  destruct (same_value_zero a u) eqn:E.
  - now rewrite (same_value_zero_compat a u k E), Hne.
  - simpl. now rewrite IH.
Qed.

Lemma map_set_get_id (k : value) (s : socket_set) (m : registry) :
  map_get k m = Some s -> map_set k s m = m.
Proof.
  induction m as [|[a t] m IH]; simpl; try discriminate.
  destruct (same_value_zero a k) eqn:E.
  - now intros [= ->].
  - intros H. now rewrite IH.
Qed.

(** A key the [Map] has not goes last. *)
Lemma map_set_absent (k : value) (s : socket_set) (m : registry) :
  map_get k m = None -> map_set k s m = m ++ [(k, s)].
Proof.
  induction m as [|[a t] m IH]; simpl; auto.
  destruct (same_value_zero a k); try discriminate.
  intros H. now rewrite IH.
Qed.

Lemma map_keys_set_present (k : value) (s : socket_set) (m : registry) :
  map_has k m = true -> map_keys (map_set k s m) = map_keys m.
Proof.
  unfold map_keys. induction m as [|[a t] m IH]; simpl.
  - discriminate.
  - rewrite map_has_cons. destruct (same_value_zero a k) eqn:E; simpl; auto.
    intros H. now rewrite IH.
Qed.

Lemma registry_ok_keys_distinct (m : registry) :
  registry_ok m = true -> keys_distinct m = true.
Proof. unfold registry_ok. now rewrite andb_true_iff. Qed.

Lemma registry_ok_entries (m : registry) :
  registry_ok m = true -> forallb entry_ok m = true.
Proof. unfold registry_ok. now rewrite andb_true_iff. Qed.

(** Only values that pass [!userId] are keys. *)
Lemma registry_ok_key_truthy (m : registry) (k : value) :
  registry_ok m = true -> map_has k m = true -> truthy k = true.
Proof.
  intros Hm. apply registry_ok_entries in Hm. unfold map_has.
  induction m as [|[a t] m IH]; simpl in *; try discriminate.
  apply andb_true_iff in Hm as [Ha Hm].
  destruct (same_value_zero a k) eqn:E; auto.
  intros _. rewrite <- (truthy_compat a k E).
  unfold entry_ok in Ha. simpl in Ha. rewrite !andb_true_iff in Ha. tauto.
Qed.

Lemma map_has_In_key (m : registry) (u : value) :
  map_has u m = true <->
  exists k, In k (map_keys m) /\ same_value_zero k u = true.
Proof.
  unfold map_keys. induction m as [|[a t] m IH]; simpl.
  - split; [discriminate | intros [k [[] _]]].
  - rewrite map_has_cons, orb_true_iff, IH. split.
    + intros [H | [k [H1 H2]]]; eauto.
    + intros [k [[<- | H1] H2]]; eauto.
Qed.

Lemma keys_distinct_NoDup (m : registry) :
  keys_distinct m = true -> NoDup (map_keys m).
Proof.
  unfold map_keys. induction m as [|[a t] m IH]; simpl.
  - constructor.
  - rewrite andb_true_iff, negb_true_iff. intros [Ha Hm].
    constructor; auto. intros Hin.
    assert (map_has a m = true) as H; [|congruence].
    apply map_has_In_key. exists a. split; auto.
    apply same_value_zero_refl.
Qed.

Lemma connectionsOf_compat (a b : value) (m : registry) :
  same_value_zero a b = true -> connectionsOf a m = connectionsOf b m.
Proof.
  intros H. unfold connectionsOf. now rewrite (map_get_compat a b m H).
Qed.

Lemma run_app (e1 e2 : list inbound) (m : registry) :
  run (e1 ++ e2) m =
  match run e1 m with
  | Some m1 => run e2 m1
  | None => None
  end.
Proof.
  revert m. induction e1 as [|[[h e] p] e1 IH]; simpl; auto.
  intros m. destruct (listener h e p m); auto.
Qed.

(** ** What one listener does to the sets *)

Lemma connectionsOf_on_register (h : handle) (u : value) (m m' : registry)
    (out : list command) (k : value) :
  truthy u = true -> on_register h u m = Returns m' out ->
  connectionsOf k m' =
  if same_value_zero u k then set_add h (connectionsOf u m)
  else connectionsOf k m.
Proof.
  intros Ht. rewrite on_register_truthy by assumption.
  destruct (template_throws u); try discriminate.
  intros [= <- _]. unfold registered. unfold connectionsOf at 1.
  rewrite map_get_set. now destruct (same_value_zero u k).
Qed.

Lemma connectionsOf_on_disconnect (h : handle) (m m' : registry)
    (out : list command) (k : value) :
  registry_ok m = true -> on_disconnect h m = Returns m' out ->
  connectionsOf k m' =
  match owner h m with
  | Some (u, s) =>
      if same_value_zero u k then set_delete h s else connectionsOf k m
  | None => connectionsOf k m
  end.
Proof.
  intros Hok. destruct (owner h m) as [[u s]|] eqn:Ho.
  - rewrite (on_disconnect_owner _ _ _ _ Hok Ho).
    destruct (List.length (set_delete h s) =? 0)%nat eqn:El;
      intros [= <- _]; unfold connectionsOf at 1.
    + destruct (same_value_zero u k) eqn:E.
      * rewrite map_get_delete_same;
          auto using registry_ok_keys_distinct.
        apply Nat.eqb_eq, length_zero_iff_nil in El. now rewrite El.
      * now rewrite map_get_delete_other.
    + rewrite map_get_set. now destruct (same_value_zero u k).
  - rewrite (on_disconnect_absent _ _ Ho). now intros [= <- _].
Qed.

(** ** The listeners other than register and disconnect *)

Lemma forallb_addressed_map (A : Type) (f : A -> command) (l : list A) :
  (forall x, addressed_relay (f x) = true) ->
  forallb addressed_relay (map f l) = true.
Proof.
  intros H. induction l as [|x l IH]; simpl; auto. now rewrite H, IH.
Qed.

Ltac relay_out :=
  repeat match goal with
    | |- context [if ?b then _ else _] => destruct b
    | |- context [match map_get ?k ?m with _ => _ end] =>
        destruct (map_get k m)
    end;
  try discriminate;
  intros [= <- <-]; split; auto;
  try (apply forallb_addressed_map; intros; reflexivity).

Lemma relays_keep_registry (h : handle) (e : string) (p : value)
    (m m' : registry) (out : list command) :
  e <> "register" -> e <> "disconnect" ->
  listener h e p m = Returns m' out ->
  m' = m /\ forallb addressed_relay out = true.
Proof.
  intros Hr Hd. unfold listener.
  apply String.eqb_neq in Hr, Hd. rewrite Hr, Hd.
  repeat match goal with
    | |- context [if (e =? ?n)%string then _ else _] =>
        destruct (e =? n)%string
    end.
  - unfold on_request_online_users. relay_out.
  - unfold on_typing. relay_out.
  - unfold on_stop_typing. relay_out.
  - unfold on_send_message. relay_out.
  - unfold on_send_media. relay_out.
  - unfold on_webrtc_offer. relay_out.
  - unfold on_webrtc_answer. relay_out.
  - unfold on_webrtc_ice. relay_out.
  - unfold on_debug_status. relay_out.
  - relay_out.
Qed.

(** A listener puts a handle into a set only for the register event of
    that very socket, and only into the set of the userId it sent. *)
Lemma listener_adds_only (h : handle) (e : string) (p : value)
    (m m' : registry) (out : list command) (k : value) (x : handle) :
  registry_ok m = true -> listener h e p m = Returns m' out ->
  set_has x (connectionsOf k m') = true ->
  set_has x (connectionsOf k m) = true \/
  (x = h /\ e = "register" /\ truthy p = true /\
   same_value_zero k p = true).
Proof.
  intros Hok Hl Hx.
  destruct (string_dec e "register") as [-> | Hr].
  - change (listener h "register" p m) with (on_register h p m) in Hl.
    destruct (truthy p) eqn:Ht.
    + rewrite (connectionsOf_on_register _ _ _ _ _ k Ht Hl) in Hx.
      destruct (same_value_zero p k) eqn:E.
      * rewrite set_has_add, orb_true_iff in Hx. destruct Hx as [Hx | Hx].
        -- left. now rewrite <- (connectionsOf_compat p k m E).
        -- right. apply String.eqb_eq in Hx.
           rewrite same_value_zero_sym. auto.
      * now left.
    + rewrite on_register_falsy in Hl by assumption.
      injection Hl as <- _. now left.
  - destruct (string_dec e "disconnect") as [-> | Hd].
    + change (listener h "disconnect" p m) with (on_disconnect h m) in Hl.
      rewrite (connectionsOf_on_disconnect _ _ _ _ k Hok Hl) in Hx.
      destruct (owner h m) as [[u s]|] eqn:Ho; auto.
      destruct (same_value_zero u k) eqn:E; auto.
      left. rewrite set_has_delete, andb_true_iff in Hx.
      destruct (owner_connectionsOf _ _ _ _
                  (registry_ok_keys_distinct _ Hok) Ho) as [Hc _].
      rewrite <- (connectionsOf_compat u k m E), Hc. tauto.
    + destruct (relays_keep_registry _ _ _ _ _ _ Hr Hd Hl) as [-> _].
      now left.
Qed.

(** ** Where the handles of a set come from *)

Lemma registered_as_app_l (h : handle) (k : value) (e1 e2 : list inbound) :
  registered_as h k e1 -> registered_as h k (e1 ++ e2).
Proof.
  intros [u [H1 H2]]. exists u. split; auto. apply in_or_app. now left.
Qed.

Lemma run_provenance (events before : list inbound) (m m' : registry) :
  registry_ok m = true ->
  (forall k x, set_has x (connectionsOf k m) = true ->
               registered_as x k before) ->
  run events m = Some m' ->
  forall k x, set_has x (connectionsOf k m') = true ->
              registered_as x k (before ++ events).
Proof.
  revert before m. induction events as [|[[h e] p] events IH];
    intros before m Hok Hm; simpl.
  - intros [= <-] k x Hx. rewrite app_nil_r. auto.
  - destruct (listener h e p m) as [|m1 out] eqn:El; try discriminate.
    intros Hrun k x Hx.
    enough (registered_as x k ((before ++ [(h, e, p)]) ++ events)) as Hg
      by (rewrite <- app_assoc in Hg; exact Hg).
    apply (IH (before ++ [(h, e, p)]) m1); auto.
    + eapply listener_ok; eassumption.
    + intros k' x' Hx'.
      destruct (listener_adds_only _ _ _ _ _ _ k' x' Hok El Hx')
        as [Hold | (-> & -> & Ht & Hs)].
      * apply registered_as_app_l. auto.
      * exists p. split; [|split; auto]. apply in_or_app. right. now left.
Qed.


Lemma provenance_single_owner (events : list inbound) (m : registry) :
  one_user_per_socket events ->
  (forall k x, set_has x (connectionsOf k m) = true ->
               registered_as x k events) ->
  forall h u v,
    set_has h (connectionsOf u m) = true ->
    set_has h (connectionsOf v m) = true ->
    same_value_zero u v = true.
Proof.
  intros Hone Hprov h u v Hu Hv.
  destruct (Hprov _ _ Hu) as [u0 [Hin0 [Ht0 Hs0]]].
  destruct (Hprov _ _ Hv) as [v0 [Hin1 [Ht1 Hs1]]].
  pose proof (Hone h u0 v0 Hin0 Hin1 Ht0 Ht1) as H01.
  rewrite same_value_zero_sym in Hs1.
  eapply same_value_zero_trans; [exact Hs0|].
  eapply same_value_zero_trans; eassumption.
Qed.

Lemma run_single_owner (events : list inbound) (m : registry) :
  run events [] = Some m ->
  one_user_per_socket events ->
  forall h u v,
    set_has h (connectionsOf u m) = true ->
    set_has h (connectionsOf v m) = true ->
    same_value_zero u v = true.
Proof.
  intros Hrun Hone. apply (provenance_single_owner events); auto.
  intros k x Hx. apply (run_provenance events [] [] m); auto.
  intros k' x'. unfold connectionsOf. simpl. discriminate.
Qed.

(** X1.  Whatever run led to the registry, a handle is in the set of a
    userId only if its socket sent a register event with that userId (one
    that passes the guard and that the [Map] identifies with the key): no
    listener ever puts a socket under a user it did not register as. *)
Theorem handle_only_under_registered_user :
  forall (events : list inbound) (connectedUsers : registry)
         (userId : value) (h : handle),
    run events [] = Some connectedUsers ->
    set_has h (connectionsOf userId connectedUsers) = true ->
    registered_as h userId events.
Proof.
  intros events m k h Hrun Hx.
  apply (run_provenance events [] [] m); auto.
  intros k' x'. unfold connectionsOf. simpl. discriminate.
Qed.

Lemma handle_only_under_registered_user_witness :
  registered_as "h2" (VStr "bob")
    [("h1", "register", VStr "alice"); ("h2", "typing", VNum 3);
     ("h2", "register", VStr "bob")].
Proof.
  apply (handle_only_under_registered_user
           [("h1", "register", VStr "alice"); ("h2", "typing", VNum 3);
            ("h2", "register", VStr "bob")]
           [(VStr "alice", ["h1"]); (VStr "bob", ["h2"])]);
    reflexivity.
Defined.

(** X2.  In a run where no socket registers under two userIds, every
    handle is in the set of at most one userId. *)
Theorem one_owner_when_sockets_keep_their_user :
  forall (events : list inbound) (connectedUsers : registry),
    run events [] = Some connectedUsers ->
    one_user_per_socket events ->
    forall h u v,
      set_has h (connectionsOf u connectedUsers) = true ->
      set_has h (connectionsOf v connectedUsers) = true ->
      same_value_zero u v = true.
Proof.
  intros events m Hrun Hone. now apply (run_single_owner events).
Qed.

Lemma one_user_per_socket_example :
  one_user_per_socket
    [("h1", "register", VStr "alice"); ("h2", "register", VStr "bob");
     ("h3", "register", VStr "bob")].
Proof.
  intros h u v Hu Hv _ _. simpl in Hu, Hv.
  destruct Hu as [Hu | [Hu | [Hu | []]]]; injection Hu as <- <-;
    destruct Hv as [Hv | [Hv | [Hv | []]]]; try discriminate;
    injection Hv as <-; reflexivity.
Defined.

Lemma one_owner_when_sockets_keep_their_user_witness :
  let events : list inbound :=
    [("h1", "register", VStr "alice"); ("h2", "register", VStr "bob");
     ("h3", "register", VStr "bob")] in
  let connectedUsers := [(VStr "alice", ["h1"]); (VStr "bob", ["h2"; "h3"])] in
  run events [] = Some connectedUsers /\
  one_user_per_socket events /\
  forall v, set_has "h3" (connectionsOf v connectedUsers) = true ->
            same_value_zero (VStr "bob") v = true.
Proof.
  intros events connectedUsers.
  split; [reflexivity|]. split; [exact one_user_per_socket_example|].
  intros v Hv.
  apply (one_owner_when_sockets_keep_their_user events connectedUsers
           eq_refl one_user_per_socket_example "h3");
    [reflexivity | exact Hv].
Defined.



(** ** Register and disconnect, one after the other *)

(** The disconnect loop on a registry in which only the set just written
    has the socket. *)
Lemma disconnect_scan_after_set (h : handle) (u : value) (s : socket_set)
    (m : registry) :
  owner h m = None -> set_has h s = true ->
  exists k,
    same_value_zero k u = true /\
    (map_get u m = None -> k = u) /\
    disconnect_scan h (map_set u s m) =
      Some (k, set_delete h s, map_set u (set_delete h s) m).
Proof.
  intros Hno Hs. apply owner_None, disconnect_scan_None in Hno.
  induction m as [|[a t] m IH]; simpl in *.
  - exists u. rewrite Hs, same_value_zero_refl. auto.
  - apply andb_true_iff in Hno as [Ha Hm]. apply negb_true_iff in Ha.
    destruct (same_value_zero a u) eqn:E; simpl.
    + exists a. rewrite Hs. repeat split; auto. discriminate.
    + rewrite Ha. destruct (IH Hm) as [k [Hk [Hk' ->]]]. eauto.
Qed.

Lemma map_delete_set_absent (k u : value) (s : socket_set) (m : registry) :
  map_get u m = None -> same_value_zero k u = true ->
  map_delete k (map_set u s m) = m.
Proof.
  intros Hno Hk. induction m as [|[a t] m IH]; simpl in *.
  - now rewrite same_value_zero_sym, Hk.
  - destruct (same_value_zero a u) eqn:E; try discriminate. simpl.
    rewrite (same_value_zero_compat_r k u a Hk), E. now rewrite IH.
Qed.

Lemma disconnect_scan_key_ok (h : handle) (m m' : registry) (k : value)
    (s' : socket_set) :
  registry_ok m = true -> disconnect_scan h m = Some (k, s', m') ->
  truthy k = true /\ template_throws k = false.
Proof.
  intros Hok Hscan. apply registry_ok_entries in Hok.
  apply disconnect_scan_Some in Hscan as (pre & s & post & -> & _).
  rewrite forallb_app in Hok. simpl in Hok.
  apply andb_true_iff in Hok as [_ Hok]. apply andb_true_iff in Hok as [Hk _].
  unfold entry_ok in Hk. simpl in Hk. rewrite !andb_true_iff in Hk.
  destruct Hk as [[[H1 H2] _] _]. apply negb_true_iff in H2. auto.
Qed.

(** X4.  Round trip.  When a socket whose handle is in no set registers
    and then disconnects, the registry is again exactly what it was before
    the registration; [user_offline] is broadcast exactly when the
    registration had brought the user online. *)
Theorem register_then_disconnect_restores :
  forall (h : handle) (userId : value) (connectedUsers after : registry)
         (emitted : list command),
    reachable connectedUsers ->
    (forall u, set_has h (connectionsOf u connectedUsers) = false) ->
    on_register h userId connectedUsers = Returns after emitted ->
    on_disconnect h after =
      Returns connectedUsers
        (if truthy userId && negb (map_has userId connectedUsers)
         then [io_emit (user_offline userId)]
         else []).
Proof.
  intros h u m m1 out Hreach Hfresh Hreg.
  pose proof (reachable_ok _ Hreach) as Hok.
  assert (Hno : owner h m = None)
    by (apply owner_None_iff; auto using registry_ok_keys_distinct).
  destruct (truthy u) eqn:Ht.
  2: { rewrite on_register_falsy in Hreg by assumption.
       injection Hreg as <- <-. simpl. now apply on_disconnect_absent. }
  pose proof (on_register_ok _ _ _ _ _ Hok Hreg) as Hok1.
  rewrite on_register_truthy in Hreg by assumption.
  destruct (template_throws u) eqn:Hs; try discriminate.
  injection Hreg as <- _. unfold registered in *.
  assert (Hin : set_has h (set_add h (connectionsOf u m)) = true)
    by apply set_has_add_same.
  destruct (disconnect_scan_after_set h u _ m Hno Hin)
    as [k [Hk [Hku Hscan]]].
  unfold on_disconnect. rewrite Hscan.
  rewrite (set_delete_add h (connectionsOf u m) (Hfresh u)) in *.
  destruct (disconnect_scan_key_ok _ _ _ _ _ Hok1 Hscan) as [Htk Hsk].
  rewrite Hsk. simpl. unfold connectionsOf, map_has in *.
  destruct (map_get u m) as [s|] eqn:E; simpl.
  - assert ((List.length s =? 0)%nat = false) as ->.
    { pose proof (registry_ok_key_iff m u Hok) as [Hne _].
      unfold map_has, connectionsOf in Hne. rewrite E in Hne.
      apply Nat.eqb_neq. intros Hl. apply length_zero_iff_nil in Hl.
      now apply Hne. }
    now rewrite (map_set_get_id u s m E).
  - rewrite (Hku eq_refl) in *. rewrite Htk.
    now rewrite (map_delete_set_absent u u [] m E (same_value_zero_refl u)).
Qed.

Lemma register_then_disconnect_restores_witness :
  let connectedUsers := [(VStr "alice", ["h1"])] in
  reachable connectedUsers /\
  on_disconnect "h2" [(VStr "alice", ["h1"; "h2"])] =
    Returns connectedUsers [] /\
  on_disconnect "h2" [(VStr "alice", ["h1"]); (VStr "bob", ["h2"])] =
    Returns connectedUsers [io_emit (user_offline (VStr "bob"))].
Proof.
  intros connectedUsers.
  assert (Hreach : reachable connectedUsers).
  { exists [("h1", "register", VStr "alice")]. reflexivity. }
  assert (Hfresh : forall u,
             set_has "h2" (connectionsOf u connectedUsers) = false).
  { intros u. unfold connectionsOf.
    change (map_get u connectedUsers)
      with (if same_value_zero (VStr "alice") u then Some ["h1"] else None).
    destruct (same_value_zero (VStr "alice") u); reflexivity. }
  split; [exact Hreach|]. split.
  - exact (register_then_disconnect_restores "h2" (VStr "alice")
             connectedUsers _ _ Hreach Hfresh eq_refl).
  - exact (register_then_disconnect_restores "h2" (VStr "bob")
             connectedUsers _ _ Hreach Hfresh eq_refl).
Defined.

(** X5.  A registration that passes the guard changes the set of the
    registering userId only, and only by adding the socket's handle; a
    userId that was a key keeps its place among the keys and a new one goes
    last. *)
Theorem register_adds_one_handle :
  forall (h : handle) (userId : value) (connectedUsers after : registry)
         (emitted : list command),
    truthy userId = true ->
    on_register h userId connectedUsers = Returns after emitted ->
    (forall k,
        connectionsOf k after =
        if same_value_zero userId k
        then set_add h (connectionsOf userId connectedUsers)
        else connectionsOf k connectedUsers)
    /\
    map_keys after =
    (if map_has userId connectedUsers then map_keys connectedUsers
     else map_keys connectedUsers ++ [userId]).
Proof.
  intros h u m m1 out Ht Hreg. split.
  - intros k. eapply connectionsOf_on_register; eassumption.
  - rewrite on_register_truthy in Hreg by assumption.
    destruct (template_throws u); try discriminate.
    injection Hreg as <- _. unfold registered.
    destruct (map_has u m) eqn:E.
    + now apply map_keys_set_present.
    + unfold map_has in E. destruct (map_get u m) eqn:F; try discriminate.
      rewrite map_set_absent by assumption.
      unfold map_keys. now rewrite map_app.
Qed.

Lemma register_adds_one_handle_witness :
  let connectedUsers := [(VStr "alice", ["h1"]); (VStr "bob", ["h2"])] in
  let after := [(VStr "alice", ["h1"; "h3"]); (VStr "bob", ["h2"])] in
  connectionsOf (VStr "bob") after = connectionsOf (VStr "bob") connectedUsers
  /\ map_keys after = map_keys connectedUsers.
Proof.
  intros connectedUsers after.
  destruct (register_adds_one_handle "h3" (VStr "alice") connectedUsers after
              _ eq_refl eq_refl) as [Hsets Hkeys].
  split; [exact (Hsets (VStr "bob")) | exact Hkeys].
Defined.

(** X6.  In a reachable registry the disconnect listener always returns.
    It takes the handle out of the set of the first userId that has it and
    leaves every other set as it was -- also a later set that has the same
    handle; without such a userId it leaves the registry as it was.  It
    never adds a handle to any set. *)
Theorem disconnect_removes_from_first_owner_only :
  forall (h : handle) (connectedUsers : registry),
    reachable connectedUsers ->
    exists after emitted,
      on_disconnect h connectedUsers = Returns after emitted /\
      (forall u s k,
          owner h connectedUsers = Some (u, s) ->
          connectionsOf k after =
          if same_value_zero u k then set_delete h s
          else connectionsOf k connectedUsers) /\
      (owner h connectedUsers = None -> after = connectedUsers) /\
      (forall k x,
          set_has x (connectionsOf k after) = true ->
          set_has x (connectionsOf k connectedUsers) = true).
Proof.
  intros h m Hreach. pose proof (reachable_ok _ Hreach) as Hok.
  assert (Hret : exists m' out, on_disconnect h m = Returns m' out).
  { destruct (owner h m) as [[u s]|] eqn:Ho.
    - rewrite (on_disconnect_owner _ _ _ _ Hok Ho).
      destruct (List.length (set_delete h s) =? 0)%nat; eauto.
    - rewrite (on_disconnect_absent _ _ Ho). eauto. }
  destruct Hret as [m' [out Hd]]. exists m', out.
  split; [exact Hd|]. split; [|split].
  - intros u s k Ho.
    rewrite (connectionsOf_on_disconnect _ _ _ _ k Hok Hd), Ho. reflexivity.
  - intros Ho. rewrite (on_disconnect_absent _ _ Ho) in Hd.
    now injection Hd as <- _.
  - intros k x Hx.
    destruct (listener_adds_only h "disconnect" VUndefined m m' out k x Hok
                Hd Hx) as [H | (_ & Hfalse & _)]; auto. discriminate.
Qed.

Lemma disconnect_removes_from_first_owner_only_witness :
  let connectedUsers := [(VStr "A", ["h1"; "h2"]); (VStr "B", ["h1"])] in
  reachable connectedUsers /\
  exists after emitted,
    on_disconnect "h1" connectedUsers = Returns after emitted /\
    connectionsOf (VStr "A") after = ["h2"] /\
    connectionsOf (VStr "B") after = ["h1"].
Proof.
  intros connectedUsers.
  assert (Hreach : reachable connectedUsers).
  { exists [("h1", "register", VStr "A"); ("h2", "register", VStr "A");
            ("h1", "register", VStr "B")]. reflexivity. }
  split; [exact Hreach|].
  destruct (disconnect_removes_from_first_owner_only "h1" connectedUsers
              Hreach) as (after & emitted & Hd & Hsets & _).
  exists after, emitted. split; [exact Hd|]. split.
  - exact (Hsets (VStr "A") ["h1"; "h2"] (VStr "A") eq_refl).
  - exact (Hsets (VStr "A") ["h1"; "h2"] (VStr "B") eq_refl).
Defined.

(** X7.  Only the register and disconnect listeners change the registry
    or announce presence: every other event, also one without a listener,
    leaves the registry as it was, broadcasts nothing and emits neither
    [user_online] nor [user_offline]; so does a whole run of such events. *)
Theorem only_register_and_disconnect_change_presence :
  (forall (h : handle) (event : string) (payload : value)
          (connectedUsers after : registry) (emitted : list command),
      event <> "register" -> event <> "disconnect" ->
      listener h event payload connectedUsers = Returns after emitted ->
      after = connectedUsers /\ forallb addressed_relay emitted = true)
  /\
  (forall (events : list inbound) (connectedUsers after : registry),
      (forall h event payload,
          In (h, event, payload) events ->
          event <> "register" /\ event <> "disconnect") ->
      run events connectedUsers = Some after ->
      after = connectedUsers).
Proof.
  split.
  - intros h e p m m' out Hr Hd Hl.
    exact (relays_keep_registry h e p m m' out Hr Hd Hl).
  - intros events. induction events as [|[[h e] p] events IH];
      intros m m' Hall; simpl.
    + now intros [= <-].
    + destruct (listener h e p m) as [|m1 out] eqn:El; try discriminate.
      destruct (Hall h e p (or_introl eq_refl)) as [Hr Hd].
      destruct (relays_keep_registry _ _ _ _ _ _ Hr Hd El) as [-> _].
      apply IH. intros h' e' p' Hin. apply (Hall h' e' p'). now right.
Qed.

Lemma only_register_and_disconnect_change_presence_witness :
  let connectedUsers := [(VStr "alice", ["h1"]); (VStr "bob", ["h2"])] in
  let payload :=
    VObj 0 [("senderId", VStr "alice"); ("receiverId", VStr "bob")] in
  listener "h1" "typing" payload connectedUsers =
    Returns connectedUsers [io_to_emit (VStr "h2") (typing (VStr "alice"))] /\
  forallb addressed_relay [io_to_emit (VStr "h2") (typing (VStr "alice"))]
  = true.
Proof.
  intros connectedUsers payload.
  destruct only_register_and_disconnect_change_presence as [Hone _].
  split; [reflexivity|].
  apply (Hone "h1" "typing" payload connectedUsers connectedUsers
           [io_to_emit (VStr "h2") (typing (VStr "alice"))]);
    [discriminate | discriminate | reflexivity].
Defined.

(** ** When a listener throws *)

Lemma disconnect_always_returns (h : handle) (m : registry) :
  registry_ok m = true ->
  exists m' out, on_disconnect h m = Returns m' out.
Proof.
  intros Hok. destruct (owner h m) as [[u s]|] eqn:Ho.
  - rewrite (on_disconnect_owner _ _ _ _ Hok Ho).
    destruct (List.length (set_delete h s) =? 0)%nat; eauto.
  - rewrite (on_disconnect_absent _ _ Ho). eauto.
Qed.

Lemma destructures_cases (e : string) :
  destructures e = true <->
  e = "typing" \/ e = "stop_typing" \/ e = "send_message" \/
  e = "send_media" \/ e = "webrtc_offer" \/ e = "webrtc_answer" \/
  e = "webrtc_ice".
Proof.
  unfold destructures. simpl. rewrite !orb_true_iff, !String.eqb_eq.
  intuition discriminate.
Qed.

Ltac throws_iff_nullish :=
  match goal with
  | |- _ = Throws <-> nullish ?p = true =>
      destruct (nullish p); [split; reflexivity|];
      repeat match goal with
        | |- context [if ?b then _ else _] => destruct b
        | |- context [match map_get ?k ?m with _ => _ end] =>
            destruct (map_get k m)
        end;
      split; discriminate
  end.

Lemma on_typing_throws (p : value) (m : registry) :
  on_typing p m = Throws <-> nullish p = true.
Proof. unfold on_typing. throws_iff_nullish. Qed.

Lemma on_stop_typing_throws (p : value) (m : registry) :
  on_stop_typing p m = Throws <-> nullish p = true.
Proof. unfold on_stop_typing. throws_iff_nullish. Qed.

Lemma on_send_message_throws (p : value) (m : registry) :
  on_send_message p m = Throws <-> nullish p = true.
Proof. unfold on_send_message. throws_iff_nullish. Qed.

Lemma on_send_media_throws (p : value) (m : registry) :
  on_send_media p m = Throws <-> nullish p = true.
Proof. unfold on_send_media. throws_iff_nullish. Qed.

Lemma on_webrtc_offer_throws (h : handle) (p : value) (m : registry) :
  on_webrtc_offer h p m = Throws <-> nullish p = true.
Proof. unfold on_webrtc_offer. throws_iff_nullish. Qed.

Lemma on_webrtc_answer_throws (h : handle) (p : value) (m : registry) :
  on_webrtc_answer h p m = Throws <-> nullish p = true.
Proof. unfold on_webrtc_answer. throws_iff_nullish. Qed.

Lemma on_webrtc_ice_throws (p : value) (m : registry) :
  on_webrtc_ice p m = Throws <-> nullish p = true.
Proof. unfold on_webrtc_ice. throws_iff_nullish. Qed.

(** X8.  When the listeners throw, in a reachable registry.  A listener
    other than register throws exactly when it destructures its payload and
    the payload is [undefined] or [null]; so the disconnect,
    request_online_users and debug_status listeners never throw.  The
    register listener never throws on [undefined], [null], a boolean, a
    number or a string, and on a plain object it throws exactly when the
    object has a [toString] property of its own, which passes the guard and
    fails in the log line. *)
Theorem listener_throws_by_case :
  forall (h : handle) (connectedUsers : registry),
    reachable connectedUsers ->
    (forall event payload,
        event <> "register" ->
        (listener h event payload connectedUsers = Throws <->
         destructures event = true /\ nullish payload = true))
    /\
    (forall userId,
        primitive userId = true ->
        listener h "register" userId connectedUsers <> Throws)
    /\
    (forall ref fields,
        listener h "register" (VObj ref fields) connectedUsers = Throws <->
        own "toString" fields <> None).
Proof.
  intros h m Hreach. pose proof (reachable_ok _ Hreach) as Hok.
  split; [|split].
  - intros e p Hr.
    destruct (string_dec e "disconnect") as [-> | Hd].
    { change (listener h "disconnect" p m) with (on_disconnect h m).
      destruct (disconnect_always_returns h m Hok) as [m' [out ->]].
      split; [discriminate | intros [H _]; discriminate]. }
    destruct (destructures e) eqn:Hde.
    + assert (Hdone : forall o, (o = Throws <-> nullish p = true) ->
                (o = Throws <-> true = true /\ nullish p = true)).
      { intros o Ho. rewrite Ho. tauto. }
      apply destructures_cases in Hde.
      destruct Hde as [-> | [-> | [-> | [-> | [-> | [-> | ->]]]]]];
        apply Hdone.
      * apply on_typing_throws.
      * apply on_stop_typing_throws.
      * apply on_send_message_throws.
      * apply on_send_media_throws.
      * apply (on_webrtc_offer_throws h).
      * apply (on_webrtc_answer_throws h).
      * apply on_webrtc_ice_throws.
    + split.
      * intros Ht. exfalso. unfold listener in Ht.
        apply String.eqb_neq in Hr, Hd. rewrite Hr, Hd in Ht.
        unfold destructures in Hde. simpl in Hde.
        rewrite !orb_false_iff in Hde.
        destruct Hde as (H1 & H2 & H3 & H4 & H5 & H6 & H7 & _).
        rewrite H1, H2, H3, H4, H5, H6, H7 in Ht.
        destruct (e =? "request_online_users")%string; try discriminate.
        destruct (e =? "debug_status")%string; discriminate.
      * intros [H _]. discriminate.
  - intros u Hp.
    change (listener h "register" u m) with (on_register h u m).
    destruct (truthy u) eqn:Ht.
    + rewrite on_register_truthy by assumption.
      assert (template_throws u = false) as ->
        by (destruct u; try reflexivity; discriminate).
      discriminate.
    + rewrite on_register_falsy by assumption. discriminate.
  - intros ref fields.
    change (listener h "register" (VObj ref fields) m)
      with (on_register h (VObj ref fields) m).
    rewrite on_register_truthy by reflexivity. unfold template_throws.
    destruct (own "toString" fields) as [v|].
    + split; [intros _; discriminate | reflexivity].
    + split; [discriminate | intros H; now contradiction H].
Qed.

Lemma listener_throws_by_case_witness :
  let connectedUsers := [(VStr "alice", ["h1"])] in
  reachable connectedUsers /\
  listener "h1" "webrtc_ice" VNull connectedUsers = Throws /\
  listener "h1" "webrtc_ice" (VNum 7) connectedUsers <> Throws /\
  listener "h1" "disconnect" VNull connectedUsers <> Throws /\
  listener "h1" "register" (VNum 7) connectedUsers <> Throws /\
  listener "h1" "register" (VObj 0 [("toString", VNum 1)]) connectedUsers
  = Throws.
Proof.
  intros connectedUsers.
  assert (Hreach : reachable connectedUsers).
  { exists [("h1", "register", VStr "alice")]. reflexivity. }
  split; [exact Hreach|].
  destruct (listener_throws_by_case "h1" connectedUsers Hreach)
    as [Hother [Hprim Hobj]].
  split; [|split; [|split; [|split]]].
  - apply Hother; [discriminate | split; reflexivity].
  - intros H. apply Hother in H; [|discriminate].
    destruct H as [_ H]. discriminate.
  - intros H. apply Hother in H; [|discriminate].
    destruct H as [H _]. discriminate.
  - apply Hprim. reflexivity.
  - apply Hobj. discriminate.
Defined.

(** ** The other relays *)

(** X9.  A typing or stop_typing event whose senderId and receiverId pass
    the guard is emitted, with the senderId alone, to each handle of the
    receiver's set and to no other room; in a reachable registry each
    connected handle of the receiver receives it once and every other
    socket nothing.  Without a key for the receiver nothing is emitted. *)
Theorem typing_fans_out_to_receiver :
  forall (payload : value) (connectedUsers : registry),
    truthy (prop payload "senderId") = true ->
    truthy (prop payload "receiverId") = true ->
    let senderId := prop payload "senderId" in
    let receiverSockets :=
      connectionsOf (prop payload "receiverId") connectedUsers in
    let to_all e :=
      map (fun socketId => io_to_emit (VStr socketId) e) receiverSockets in
    on_typing payload connectedUsers =
      Returns connectedUsers (to_all (typing senderId)) /\
    on_stop_typing payload connectedUsers =
      Returns connectedUsers (to_all (stop_typing senderId)) /\
    (reachable connectedUsers ->
     forall e sockets self h,
       received_by h (deliveries sockets self (to_all e)) =
       if set_has h receiverSockets && set_has h sockets then [e] else [])
    /\
    (map_has (prop payload "receiverId") connectedUsers = false ->
     forall e, to_all e = []).
Proof.
  intros p m Hs Hr senderId rs to_all.
  pose proof (truthy_not_nullish _ _ Hs) as Hn.
  split; [|split; [|split]].
  - unfold on_typing. rewrite Hn, Hs, Hr. simpl.
    subst to_all rs senderId. unfold connectionsOf.
    now destruct (map_get (prop p "receiverId") m).
  - unfold on_stop_typing. rewrite Hn, Hs, Hr. simpl.
    subst to_all rs senderId. unfold connectionsOf.
    now destruct (map_get (prop p "receiverId") m).
  - intros Hreach e sockets self h. apply received_by_fanout.
    apply registry_ok_set_ok. now apply reachable_ok.
  - intros Hno e. subst to_all rs. unfold connectionsOf, map_has in *.
    now destruct (map_get (prop p "receiverId") m).
Qed.

Lemma typing_fans_out_to_receiver_witness :
  let payload :=
    VObj 0 [("senderId", VStr "alice"); ("receiverId", VStr "bob")] in
  let connectedUsers :=
    [(VStr "alice", ["h1"]); (VStr "bob", ["h2"; "h3"])] in
  on_typing payload connectedUsers =
    Returns connectedUsers
      [io_to_emit (VStr "h2") (typing (VStr "alice"));
       io_to_emit (VStr "h3") (typing (VStr "alice"))].
Proof.
  intros payload connectedUsers.
  apply (typing_fans_out_to_receiver payload connectedUsers); reflexivity.
Defined.

(** X10.  A send_media event whose senderId, receiverId and mediaType
    pass the guard is emitted as [receive_media] to each handle of the
    receiver's set and to no other room, with data, filename, messageId and
    createdAt as they came -- [undefined] when the payload has none: data is
    not checked.  In a reachable registry each connected handle of the
    receiver receives it once and every other socket nothing. *)
Theorem send_media_fans_out_to_receiver :
  forall (payload : value) (connectedUsers : registry),
    truthy (prop payload "senderId") = true ->
    truthy (prop payload "receiverId") = true ->
    truthy (prop payload "mediaType") = true ->
    let receiverSockets :=
      connectionsOf (prop payload "receiverId") connectedUsers in
    let event :=
      receive_media (prop payload "senderId") (prop payload "mediaType")
        (prop payload "data") (prop payload "filename")
        (prop payload "messageId") (prop payload "createdAt") in
    let emitted :=
      map (fun socketId => io_to_emit (VStr socketId) event) receiverSockets in
    on_send_media payload connectedUsers = Returns connectedUsers emitted /\
    (reachable connectedUsers ->
     forall sockets self h,
       received_by h (deliveries sockets self emitted) =
       if set_has h receiverSockets && set_has h sockets then [event] else [])
    /\
    (map_has (prop payload "receiverId") connectedUsers = false ->
     emitted = []).
Proof.
  intros p m Hs Hr Hc rs event emitted. split; [|split].
  - unfold on_send_media. rewrite (truthy_not_nullish _ _ Hs), Hs, Hr, Hc.
    simpl. subst emitted rs event. unfold connectionsOf.
    now destruct (map_get (prop p "receiverId") m).
  - intros Hreach sockets self h. apply received_by_fanout.
    apply registry_ok_set_ok. now apply reachable_ok.
  - intros Hno. subst emitted rs. unfold connectionsOf, map_has in *.
    now destruct (map_get (prop p "receiverId") m).
Qed.

Lemma send_media_fans_out_to_receiver_witness :
  let payload :=
    VObj 0 [("senderId", VStr "alice"); ("receiverId", VStr "bob");
            ("mediaType", VStr "image")] in
  let connectedUsers := [(VStr "bob", ["h2"])] in
  on_send_media payload connectedUsers =
    Returns connectedUsers
      [io_to_emit (VStr "h2")
         (receive_media (VStr "alice") (VStr "image") VUndefined VUndefined
            VUndefined VUndefined)].
Proof.
  intros payload connectedUsers.
  apply (send_media_fans_out_to_receiver payload connectedUsers); reflexivity.
Defined.

(** X11.  An ICE candidate whose targetSocketId is a string goes to the
    room of that name and nowhere else, whatever the registry holds: the
    socket of that id receives [webrtc_ice] with the candidate when it is
    connected; nothing is delivered when no connected socket has that id, as
    when the string is a userId, or when targetSocketId or candidate fails
    the guard.  The listener returns in every one of these cases. *)
Theorem ice_candidate_reaches_named_socket_only :
  forall (payload : value) (connectedUsers : registry)
         (sockets : list handle) (self t : handle),
    prop payload "targetSocketId" = VStr t ->
    let candidate := prop payload "candidate" in
    exists emitted,
      on_webrtc_ice payload connectedUsers = Returns connectedUsers emitted /\
      deliveries sockets self emitted =
        (if truthy (VStr t) && truthy candidate && set_has t sockets
         then [(t, webrtc_ice candidate)]
         else []) /\
      (set_has t sockets = false -> deliveries sockets self emitted = []).
Proof.
  intros p m sockets self t Ht candidate.
  assert (Hn : nullish p = false).
  { destruct p; simpl in *; auto; discriminate. }
  unfold on_webrtc_ice. rewrite Hn, Ht. fold candidate.
  destruct (truthy (VStr t)) eqn:Htt, (truthy candidate) eqn:Hc; simpl;
    try (exists []; repeat split; now rewrite ?andb_false_r).
  eexists. split; [reflexivity|]. unfold deliveries. simpl.
  destruct (set_has t sockets); simpl; split; auto. discriminate.
Qed.

Lemma ice_candidate_reaches_named_socket_only_witness :
  let connectedUsers := [(VStr "bob", ["h2"])] in
  (exists emitted,
      on_webrtc_ice
        (VObj 0 [("targetSocketId", VStr "h2"); ("candidate", VStr "c0")])
        connectedUsers = Returns connectedUsers emitted /\
      deliveries ["h1"; "h2"] "h1" emitted = [("h2", webrtc_ice (VStr "c0"))])
  /\
  (exists emitted,
      on_webrtc_ice
        (VObj 1 [("targetSocketId", VStr "bob"); ("candidate", VStr "c0")])
        connectedUsers = Returns connectedUsers emitted /\
      deliveries ["h1"; "h2"] "h1" emitted = []).
Proof.
  intros connectedUsers. split.
  - destruct (ice_candidate_reaches_named_socket_only
                (VObj 0 [("targetSocketId", VStr "h2");
                         ("candidate", VStr "c0")])
                connectedUsers ["h1"; "h2"] "h1" "h2" eq_refl)
      as [e [H1 [H2 _]]].
    exists e. split; [exact H1 | exact H2].
  - destruct (ice_candidate_reaches_named_socket_only
                (VObj 1 [("targetSocketId", VStr "bob");
                         ("candidate", VStr "c0")])
                connectedUsers ["h1"; "h2"] "h1" "bob" eq_refl)
      as [e [H1 [_ H3]]].
    exists e. split; [exact H1 | exact (H3 eq_refl)].
Defined.

(** ** Who is online *)

Lemma same_value_zero_str_eq (k : value) (s : string) :
  same_value_zero k (VStr s) = true -> k = VStr s.
Proof.
  destruct k; simpl; try discriminate.
  intros H. apply String.eqb_eq in H. now subst.
Qed.

Lemma keys_distinct_In_get (m : registry) (u : value) (s : socket_set) :
  keys_distinct m = true -> In (u, s) m -> connectionsOf u m = s.
Proof.
  unfold connectionsOf. induction m as [|[a t] m IH]; simpl.
  - intros _ [].
  - rewrite andb_true_iff, negb_true_iff. intros [Ha Hm] [[= -> ->] | Hin].
    + now rewrite same_value_zero_refl.
    + destruct (same_value_zero a u) eqn:E; auto.
      exfalso. assert (map_has a m = true) as H; [|congruence].
      apply map_has_In_key. exists u. split.
      * unfold map_keys. apply in_map_iff. now exists (u, s).
      * now rewrite same_value_zero_sym.
Qed.

(** X12.  Both queries for the online users, the request_online_users
    event and the route /api/online-users, answer with the keys of the
    registry in insertion order (the route with their number as count); the
    event answers the asking socket only and changes nothing.  In a
    reachable registry that list names no userId twice, names no falsy
    userId, and names a string userId exactly when that user has a handle
    in the registry. *)
Theorem online_queries_list_the_connected_users :
  forall (h : handle) (connectedUsers : registry),
    reachable connectedUsers ->
    let onlineUserIds := map_keys connectedUsers in
    on_request_online_users connectedUsers =
      Returns connectedUsers [socket_emit (online_users onlineUserIds)] /\
    api_online_users connectedUsers =
      online_users_body true onlineUserIds (List.length onlineUserIds) /\
    NoDup onlineUserIds /\
    (forall k, In k onlineUserIds -> truthy k = true) /\
    (forall s, In (VStr s) onlineUserIds <->
               connectionsOf (VStr s) connectedUsers <> []) /\
    (forall sockets x,
        set_has h sockets = true ->
        received_by x
          (deliveries sockets h [socket_emit (online_users onlineUserIds)]) =
        if (h =? x)%string then [online_users onlineUserIds] else []).
Proof.
  intros h m Hreach ids. pose proof (reachable_ok _ Hreach) as Hok.
  split; [reflexivity|]. split; [reflexivity|].
  split; [|split; [|split]].
  - apply keys_distinct_NoDup. now apply registry_ok_keys_distinct.
  - intros k Hin. apply (registry_ok_key_truthy m k Hok).
    apply map_has_In_key. exists k. split; auto.
    apply same_value_zero_refl.
  - intros s. rewrite <- (registry_ok_key_iff m (VStr s) Hok).
    rewrite map_has_In_key. split.
    + intros Hin. exists (VStr s). split; auto. apply same_value_zero_refl.
    + intros [k [Hin Hk]]. now rewrite <- (same_value_zero_str_eq k s Hk).
  - intros sockets x Hin.
    change [socket_emit (online_users ids)]
      with (map socket_emit [online_users ids]).
    rewrite received_by_socket_emits, Hin. reflexivity.
Qed.

Lemma online_queries_list_the_connected_users_witness :
  let connectedUsers := [(VStr "alice", ["h1"]); (VStr "bob", ["h2"; "h3"])] in
  reachable connectedUsers /\
  api_online_users connectedUsers =
    online_users_body true [VStr "alice"; VStr "bob"] 2 /\
  NoDup (map_keys connectedUsers).
Proof.
  intros connectedUsers.
  assert (Hreach : reachable connectedUsers).
  { exists [("h1", "register", VStr "alice"); ("h2", "register", VStr "bob");
            ("h3", "register", VStr "bob")]. reflexivity. }
  split; [exact Hreach|].
  destruct (online_queries_list_the_connected_users "h1" connectedUsers
              Hreach) as [_ [Hapi [Hnd _]]].
  split; [exact Hapi | exact Hnd].
Defined.

(** X13.  The debug_status listener answers the asking socket only, with
    one entry per key of the registry, in order, and changes nothing.  In a
    reachable registry totalUsers is the number of online userIds and every
    entry holds the handles of its user, without repetition, with their
    number as socketCount, which is at least 1. *)
Theorem debug_status_reports_the_registry :
  forall (h : handle) (connectedUsers : registry),
    reachable connectedUsers ->
    exists entries,
      on_debug_status h connectedUsers =
        Returns connectedUsers
          [socket_emit
             (debug_status_response (List.length (map_keys connectedUsers))
                entries h)] /\
      map (fun e => fst (fst e)) entries = map_keys connectedUsers /\
      (forall userId socketCount socketIds,
          In (userId, socketCount, socketIds) entries ->
          socketIds = connectionsOf userId connectedUsers /\
          socketCount = List.length socketIds /\
          1 <= socketCount /\
          NoDup socketIds).
Proof.
  intros h m Hreach. pose proof (reachable_ok _ Hreach) as Hok.
  eexists. split; [|split].
  - unfold on_debug_status, map_keys. rewrite length_map. reflexivity.
  - unfold map_keys. rewrite map_map. apply map_ext. now intros [u s].
  - intros u n ids Hin. apply in_map_iff in Hin as [[u' s] [[= -> <- <-] Hin]].
    pose proof (registry_ok_entries m Hok) as Hf.
    rewrite forallb_forall in Hf. specialize (Hf _ Hin).
    unfold entry_ok in Hf. simpl in Hf. rewrite !andb_true_iff in Hf.
    destruct Hf as [[_ Hl] Hs]. apply negb_true_iff, Nat.eqb_neq in Hl.
    split; [|split; [|split]].
    + symmetry. apply keys_distinct_In_get; auto.
      now apply registry_ok_keys_distinct.
    + reflexivity.
    + lia.
    + now apply set_ok_NoDup.
Qed.

Lemma debug_status_reports_the_registry_witness :
  let connectedUsers := [(VStr "alice", ["h1"]); (VStr "bob", ["h2"; "h3"])] in
  reachable connectedUsers /\
  exists entries,
    on_debug_status "h1" connectedUsers =
      Returns connectedUsers
        [socket_emit (debug_status_response 2 entries "h1")] /\
    map (fun e => fst (fst e)) entries = [VStr "alice"; VStr "bob"].
Proof.
  intros connectedUsers.
  assert (Hreach : reachable connectedUsers).
  { exists [("h1", "register", VStr "alice"); ("h2", "register", VStr "bob");
            ("h3", "register", VStr "bob")]. reflexivity. }
  split; [exact Hreach|].
  destruct (debug_status_reports_the_registry "h1" connectedUsers Hreach)
    as [entries [Hd [Hkeys _]]].
  exists entries. split; [exact Hd | exact Hkeys].
Defined.

(** ** The notify route *)

Lemma delivered_to_app (E : Type) (h : handle) (d1 d2 : list (handle * E)) :
  delivered_to h (d1 ++ d2) = delivered_to h d1 ++ delivered_to h d2.
Proof. unfold delivered_to. now rewrite filter_app, map_app. Qed.

Lemma room_deliveries_app (E : Type) (sockets : list handle)
    (l1 l2 : list (value * E)) :
  room_deliveries sockets (l1 ++ l2) =
  room_deliveries sockets l1 ++ room_deliveries sockets l2.
Proof. unfold room_deliveries. apply flat_map_app. Qed.

Lemma room_deliveries_cons (E : Type) (sockets : list handle) (x : handle)
    (e : E) (rest : list (value * E)) :
  room_deliveries sockets ((VStr x, e) :: rest) =
  (if set_has x sockets then [(x, e)] else [])
  ++ room_deliveries sockets rest.
Proof.
  unfold room_deliveries. simpl. now destruct (set_has x sockets).
Qed.

(** A fan-out over a set, as rooms: each connected socket of the set gets
    the event once and nobody else anything. *)
Lemma delivered_to_fanout (E : Type) (h : handle) (sockets : list handle)
    (e : E) (targets : socket_set) :
  set_ok targets = true ->
  delivered_to h
    (room_deliveries sockets
       (map (fun socketId => (VStr socketId, e)) targets)) =
  if set_has h targets && set_has h sockets then [e] else [].
Proof.
  induction targets as [|x r IH].
  - reflexivity.
  - cbn [set_ok map]. rewrite andb_true_iff, negb_true_iff. intros [Hx Hr].
    rewrite room_deliveries_cons, delivered_to_app, (IH Hr).
    cbn [set_has existsb]. fold (set_has h r).
    destruct (x =? h)%string eqn:E0.
    + apply String.eqb_eq in E0. subst x. rewrite Hx. simpl.
      destruct (set_has h sockets); unfold delivered_to; simpl; auto.
      now rewrite String.eqb_refl.
    + destruct (set_has x sockets); unfold delivered_to; simpl; auto.
      now rewrite E0.
Qed.

(** X14.  The notify route throws when [req.body] is [undefined] or
    [null].  Otherwise it always answers success, whether or not the recipient is online,
    after emitting [notification] with the body's message to each handle of
    the recipient's set and to no other room; it tests neither field.  In a
    reachable registry each connected handle of the recipient is notified
    once and every other socket not at all, and a missing or falsy
    recipientId, which is no key, notifies nobody. *)
Theorem notify_reaches_every_session_of_the_recipient :
  forall (body : value) (connectedUsers : registry),
    (nullish body = true ->
     notify_appointment body connectedUsers = NotifyThrows)
    /\
    (nullish body = false ->
     let recipientId := prop body "recipientId" in
     let event := notification (prop body "message") in
     let emitted :=
       map (fun socketId => (VStr socketId, event))
         (connectionsOf recipientId connectedUsers) in
     notify_appointment body connectedUsers =
       NotifyReturns emitted (success_body true) /\
     (reachable connectedUsers ->
      (forall sockets h,
          delivered_to h (room_deliveries sockets emitted) =
          if set_has h (connectionsOf recipientId connectedUsers)
             && set_has h sockets
          then [event] else []) /\
      (truthy recipientId = false -> emitted = []))).
Proof.
  intros body m. split.
  - intros Hn. unfold notify_appointment. now rewrite Hn.
  - intros Hn recipientId event emitted. split.
    + unfold notify_appointment. rewrite Hn. fold recipientId.
      subst emitted. unfold connectionsOf.
      now destruct (map_get recipientId m).
    + intros Hreach. pose proof (reachable_ok _ Hreach) as Hok. split.
      * intros sockets h. apply delivered_to_fanout.
        now apply registry_ok_set_ok.
      * intros Hf. subst emitted. unfold connectionsOf.
        destruct (map_get recipientId m) eqn:E; auto.
        assert (map_has recipientId m = true) as Hhas
          by (unfold map_has; now rewrite E).
        apply (registry_ok_key_truthy m _ Hok) in Hhas. congruence.
Qed.

Lemma notify_reaches_every_session_of_the_recipient_witness :
  let connectedUsers := [(VStr "alice", ["h1"]); (VStr "bob", ["h2"; "h3"])] in
  let body := VObj 0 [("recipientId", VStr "bob"); ("message", VStr "at 9")] in
  notify_appointment VUndefined connectedUsers = NotifyThrows /\
  notify_appointment body connectedUsers =
    NotifyReturns
      [(VStr "h2", notification (VStr "at 9"));
       (VStr "h3", notification (VStr "at 9"))]
      (success_body true) /\
  notify_appointment (VObj 1 []) connectedUsers =
    NotifyReturns [] (success_body true).
Proof.
  intros connectedUsers body.
  destruct (notify_reaches_every_session_of_the_recipient VUndefined
              connectedUsers) as [Hthrow _].
  destruct (notify_reaches_every_session_of_the_recipient body
              connectedUsers) as [_ Hbob].
  destruct (notify_reaches_every_session_of_the_recipient (VObj 1 [])
              connectedUsers) as [_ Hnone].
  split; [exact (Hthrow eq_refl)|]. split.
  - exact (proj1 (Hbob eq_refl)).
  - exact (proj1 (Hnone eq_refl)).
Defined.

(** ** The earlier revision *)

Lemma previous_on_register_registry (h : handle) (u : value) (m : registry) :
  Previous.on_register h u m =
  match on_register h u m with
  | Throws => Throws
  | Returns m' _ => Returns m' []
  end.
Proof.
  unfold Previous.on_register, on_register.
  destruct (negb (truthy u)); auto.
  destruct (map_get u _); auto.
  destruct (template_throws u); auto.
Qed.

Lemma disconnect_loop_app (h : handle) (l1 l2 : registry) :
  Previous.disconnect_loop h (l1 ++ l2) =
  Previous.disconnect_loop h l1 ++ Previous.disconnect_loop h l2.
Proof.
  induction l1 as [|[a t] l1 IH]; simpl; auto.
  destruct (List.length (set_delete h t) =? 0)%nat; simpl; now rewrite IH.
Qed.

(** The loop leaves alone the entries that have not the socket. *)
Lemma disconnect_loop_absent (h : handle) (l : registry) :
  forallb (fun e => negb (set_has h (snd e))) l = true ->
  forallb entry_ok l = true ->
  Previous.disconnect_loop h l = l.
Proof.
  induction l as [|[a t] l IH]; simpl; auto.
  rewrite !andb_true_iff, negb_true_iff. intros [Ha Hl] [Hta Htl].
  rewrite (set_delete_absent h t Ha).
  unfold entry_ok in Hta. simpl in Hta. rewrite !andb_true_iff in Hta.
  destruct Hta as [[_ Hne] _]. apply negb_true_iff in Hne. rewrite Hne.
  now rewrite IH.
Qed.

Lemma disconnect_loop_get_None (h : handle) (k : value) (l : registry) :
  map_get k l = None -> map_get k (Previous.disconnect_loop h l) = None.
Proof.
  induction l as [|[a t] l IH]; simpl; auto.
  destruct (same_value_zero a k) eqn:E; try discriminate.
  intros H. destruct (List.length (set_delete h t) =? 0)%nat; simpl; auto.
  now rewrite E, IH.
Qed.

Lemma disconnect_loop_ok (h : handle) (m : registry) :
  registry_ok m = true ->
  registry_ok (Previous.disconnect_loop h m) = true.
Proof.
  unfold registry_ok. rewrite !andb_true_iff.
  induction m as [|[a t] m IH]; simpl; auto.
  rewrite !andb_true_iff, negb_true_iff. intros [[Ha Hk] [Hta Hf]].
  destruct (IH (conj Hk Hf)) as [IHk IHf].
  destruct (List.length (set_delete h t) =? 0)%nat eqn:El; simpl; auto.
  rewrite IHk, IHf, !andb_true_r. split.
  - apply negb_true_iff. unfold map_has in *.
    destruct (map_get a m) eqn:E; try discriminate.
    now rewrite disconnect_loop_get_None.
  - unfold entry_ok in *. simpl in *. rewrite !andb_true_iff in *.
    destruct Hta as [[[H1 H2] _] H4]. rewrite El.
    repeat split; auto. now apply set_ok_delete.
Qed.

Lemma disconnect_loop_connectionsOf (h : handle) (k : value) (m : registry) :
  keys_distinct m = true ->
  connectionsOf k (Previous.disconnect_loop h m) =
  set_delete h (connectionsOf k m).
Proof.
  unfold connectionsOf. induction m as [|[a t] m IH]; simpl; auto.
  rewrite andb_true_iff, negb_true_iff. intros [Ha Hk].
  destruct (List.length (set_delete h t) =? 0)%nat eqn:El; simpl.
  - destruct (same_value_zero a k) eqn:E; auto.
    unfold map_has in Ha. rewrite (map_get_compat a k _ E) in Ha.
    destruct (map_get k m) eqn:F; try discriminate.
    rewrite disconnect_loop_get_None by assumption.
    apply Nat.eqb_eq, length_zero_iff_nil in El. now rewrite El.
  - destruct (same_value_zero a k); auto.
Qed.

Lemma previous_run_ok (events : list inbound) (m m' : registry) :
  registry_ok m = true -> Previous.run events m = Some m' ->
  registry_ok m' = true.
Proof.
  revert m. induction events as [|[[h e] p] events IH]; simpl.
  - now intros m Hm [= <-].
  - intros m Hm.
    destruct (e =? "register")%string.
    { rewrite previous_on_register_registry.
      destruct (on_register h p m) as [|m1 out] eqn:E; try discriminate.
      apply IH. eapply on_register_ok; eassumption. }
    destruct (e =? "disconnect")%string.
    { unfold Previous.on_disconnect. apply IH. now apply disconnect_loop_ok. }
    destruct (e =? "send_message")%string; [|now apply IH].
    destruct (Previous.on_send_message p m); try discriminate. now apply IH.
Qed.

Lemma previous_reachable_ok (m : registry) :
  Previous.reachable m -> registry_ok m = true.
Proof.
  intros [events H]. eapply previous_run_ok; [|exact H]. reflexivity.
Qed.

(** X15.  The disconnect listener of the earlier revision takes the
    handle out of every user's set and drops the users left without one: in
    a registry that revision can reach, afterwards every set is the old one
    without the handle, so the handle is in nobody's set whatever the number
    of users it was registered under, and a userId is still a key exactly
    when its set is not empty. *)
Theorem previous_disconnect_clears_every_set :
  forall (h : handle) (connectedUsers : registry),
    Previous.reachable connectedUsers ->
    exists after,
      Previous.on_disconnect h connectedUsers = Returns after [] /\
      Previous.reachable after /\
      (forall k,
          connectionsOf k after = set_delete h (connectionsOf k connectedUsers))
      /\
      (forall k, set_has h (connectionsOf k after) = false) /\
      (forall k, map_has k after = true <-> connectionsOf k after <> []).
Proof.
  intros h m Hreach. pose proof (previous_reachable_ok _ Hreach) as Hok.
  exists (Previous.disconnect_loop h m).
  assert (Hconn : forall k,
             connectionsOf k (Previous.disconnect_loop h m) =
             set_delete h (connectionsOf k m)).
  { intros k. apply disconnect_loop_connectionsOf.
    now apply registry_ok_keys_distinct. }
  split; [reflexivity|]. split; [|split; [exact Hconn|split]].
  - destruct Hreach as [events Hrun].
    exists (events ++ [(h, "disconnect", VUndefined)]).
    clear Hok Hconn. revert Hrun. generalize (@nil (value * socket_set)).
    induction events as [|[[h' e] p] events IH]; simpl; intros m0.
    + now intros [= <-].
    + destruct (e =? "register")%string.
      { destruct (Previous.on_register h' p m0); try discriminate. apply IH. }
      destruct (e =? "disconnect")%string.
      { unfold Previous.on_disconnect. apply IH. }
      destruct (e =? "send_message")%string; [|apply IH].
      destruct (Previous.on_send_message p m0); try discriminate. apply IH.
  - intros k. rewrite Hconn, set_has_delete, String.eqb_refl.
    apply andb_false_r.
  - intros k. apply registry_ok_key_iff. now apply disconnect_loop_ok.
Qed.

Lemma previous_disconnect_clears_every_set_witness :
  let connectedUsers := [(VStr "A", ["h1"; "h2"]); (VStr "B", ["h1"])] in
  Previous.reachable connectedUsers /\
  exists after,
    Previous.on_disconnect "h1" connectedUsers = Returns after [] /\
    forall k, set_has "h1" (connectionsOf k after) = false.
Proof.
  intros connectedUsers.
  assert (Hreach : Previous.reachable connectedUsers).
  { exists [("h1", "register", VStr "A"); ("h2", "register", VStr "A");
            ("h1", "register", VStr "B")]. reflexivity. }
  split; [exact Hreach|].
  destruct (previous_disconnect_clears_every_set "h1" connectedUsers Hreach)
    as [after [Hd [_ [_ [Hgone _]]]]].
  exists after. split; [exact Hd | exact Hgone].
Defined.

Lemma previous_fanout_guard (A B : Type) (f : A -> B) (l : list A) :
  (if (0 <? List.length l)%nat then map f l else []) = map f l.
Proof. now destruct l. Qed.

(** X16.  The chat relay of the earlier revision throws when the event
    has no payload; otherwise it returns, having emitted [receive_message]
    with the senderId and the content to each handle of the receiver's set
    and then [message_sent] with the receiverId and the content to each
    handle of the sender's set.  It tests no field: an empty content is
    relayed too.  In a registry that revision can reach, each connected
    handle of the receiver receives the message once and each connected
    handle of the sender the echo once. *)
Theorem previous_send_message_relays_and_echoes :
  forall (data : value) (connectedUsers : registry),
    (nullish data = true ->
     Previous.on_send_message data connectedUsers = Previous.RelayThrows)
    /\
    (nullish data = false ->
     let senderId := prop data "senderId" in
     let receiverId := prop data "receiverId" in
     let content := prop data "content" in
     let to_receiver :=
       map (fun id => (VStr id, Previous.receive_message senderId content))
         (connectionsOf receiverId connectedUsers) in
     let to_sender :=
       map (fun id => (VStr id, Previous.message_sent receiverId content))
         (connectionsOf senderId connectedUsers) in
     Previous.on_send_message data connectedUsers =
       Previous.RelayReturns (to_receiver ++ to_sender) /\
     (Previous.reachable connectedUsers ->
      forall sockets h,
        delivered_to h (room_deliveries sockets (to_receiver ++ to_sender)) =
        (if set_has h (connectionsOf receiverId connectedUsers)
            && set_has h sockets
         then [Previous.receive_message senderId content] else [])
        ++
        (if set_has h (connectionsOf senderId connectedUsers)
            && set_has h sockets
         then [Previous.message_sent receiverId content] else []))).
Proof.
  intros data m. split.
  - intros Hn. unfold Previous.on_send_message. now rewrite Hn.
  - intros Hn senderId receiverId content to_receiver to_sender. split.
    + unfold Previous.on_send_message. rewrite Hn.
      fold senderId receiverId content.
      subst to_receiver to_sender. unfold connectionsOf.
      destruct (map_get receiverId m), (map_get senderId m);
        now rewrite ?previous_fanout_guard.
    + intros Hreach sockets h.
      pose proof (previous_reachable_ok _ Hreach) as Hok.
      rewrite room_deliveries_app, delivered_to_app.
      subst to_receiver to_sender.
      rewrite !delivered_to_fanout by now apply registry_ok_set_ok.
      reflexivity.
Qed.

Lemma previous_send_message_relays_and_echoes_witness :
  let connectedUsers := [(VStr "alice", ["h1"]); (VStr "bob", ["h2"])] in
  let data :=
    VObj 0 [("senderId", VStr "alice"); ("receiverId", VStr "bob");
            ("content", VStr "")] in
  Previous.on_send_message VNull connectedUsers = Previous.RelayThrows /\
  Previous.on_send_message data connectedUsers =
    Previous.RelayReturns
      [(VStr "h2", Previous.receive_message (VStr "alice") (VStr ""));
       (VStr "h1", Previous.message_sent (VStr "bob") (VStr ""))].
Proof.
  intros connectedUsers data.
  destruct (previous_send_message_relays_and_echoes VNull connectedUsers)
    as [Hthrow _].
  destruct (previous_send_message_relays_and_echoes data connectedUsers)
    as [_ Hrelay].
  split; [exact (Hthrow eq_refl) | exact (proj1 (Hrelay eq_refl))].
Defined.

(** ** The two revisions side by side *)

Lemma keys_distinct_app_r (l1 l2 : registry) :
  keys_distinct (l1 ++ l2) = true -> keys_distinct l2 = true.
Proof.
  induction l1 as [|[a t] l1 IH]; simpl; auto.
  rewrite andb_true_iff. intros [_ H]. auto.
Qed.

(** X17.  The two revisions write the registry alike, with one
    difference.  Registering leaves the same registry in both (and throws
    for the same userIds), and the notify routes do the same.  Disconnecting
    leaves the same registry in both whenever the handle is in at most one
    user's set; the revisions part only on a handle that is in several. *)
Theorem revisions_agree_on_single_owner :
  forall (h : handle) (connectedUsers : registry),
    (forall userId,
        Previous.on_register h userId connectedUsers =
        match on_register h userId connectedUsers with
        | Throws => Throws
        | Returns after _ => Returns after []
        end)
    /\
    (forall body,
        Previous.notify_appointment body connectedUsers =
        notify_appointment body connectedUsers)
    /\
    (reachable connectedUsers ->
     (forall u v,
         set_has h (connectionsOf u connectedUsers) = true ->
         set_has h (connectionsOf v connectedUsers) = true ->
         same_value_zero u v = true) ->
     exists emitted,
       on_disconnect h connectedUsers =
       Returns (Previous.disconnect_loop h connectedUsers) emitted).
Proof.
  intros h m. split; [|split].
  - intros u. apply previous_on_register_registry.
  - intros body. unfold Previous.notify_appointment, notify_appointment.
    destruct (nullish body); auto.
    destruct (map_get _ m) as [s|]; auto. now destruct s.
  - intros Hreach Hone. pose proof (reachable_ok _ Hreach) as Hok.
    pose proof (registry_ok_keys_distinct _ Hok) as Hk.
    pose proof (registry_ok_entries _ Hok) as Hf.
    destruct (owner h m) as [[u s]|] eqn:Ho.
    + rewrite (on_disconnect_owner _ _ _ _ Hok Ho).
      destruct (owner_connectionsOf _ _ _ _ Hk Ho) as [Hc Hs].
      destruct (owner_Some _ _ _ _ Ho) as [m' Hscan].
      apply disconnect_scan_Some in Hscan
        as (pre & s0 & post & -> & Hpre & _ & _ & _).
      pose proof (keys_distinct_app_absent _ _ _ _ Hk) as Hupre.
      assert (s0 = s) as ->.
      { unfold connectionsOf in Hc. rewrite map_get_app, Hupre in Hc.
        simpl in Hc. now rewrite same_value_zero_refl in Hc. }
      rewrite forallb_app in Hf. simpl in Hf.
      apply andb_true_iff in Hf as [Hfpre Hf].
      apply andb_true_iff in Hf as [_ Hfpost].
      assert (Hpost : forallb (fun e => negb (set_has h (snd e))) post = true).
      { apply forallb_forall. intros [v t] Hin. simpl.
        destruct (set_has h t) eqn:Ht; auto. exfalso.
        assert (Hin' : In (v, t) (pre ++ (u, s) :: post))
          by (apply in_or_app; right; now right).
        pose proof (keys_distinct_In_get _ _ _ Hk Hin') as Hv.
        rewrite <- Hc in Hs. rewrite <- Hv in Ht.
        pose proof (Hone u v Hs Ht) as Huv.
        pose proof (keys_distinct_app_r _ _ Hk) as Hk2. simpl in Hk2.
        apply andb_true_iff in Hk2 as [Hk2 _]. apply negb_true_iff in Hk2.
        assert (map_has u post = true) as Hhas; [|congruence].
        apply map_has_In_key. exists v. split.
        - unfold map_keys. apply in_map_iff. now exists (v, t).
        - now rewrite same_value_zero_sym. }
      rewrite disconnect_loop_app. simpl.
      rewrite (disconnect_loop_absent h pre Hpre Hfpre).
      rewrite (disconnect_loop_absent h post Hpost Hfpost).
      rewrite map_delete_app_absent, map_set_app_absent by assumption.
      destruct (List.length (set_delete h s) =? 0)%nat; eauto.
    + rewrite (on_disconnect_absent _ _ Ho).
      apply owner_None, disconnect_scan_None in Ho.
      rewrite (disconnect_loop_absent h m Ho Hf). eauto.
Qed.

Lemma revisions_agree_on_single_owner_witness :
  let connectedUsers := [(VStr "alice", ["h1"]); (VStr "bob", ["h2"; "h3"])] in
  reachable connectedUsers /\
  exists emitted,
    on_disconnect "h1" connectedUsers =
    Returns (Previous.disconnect_loop "h1" connectedUsers) emitted.
Proof.
  intros connectedUsers.
  assert (Hreach : reachable connectedUsers).
  { exists [("h1", "register", VStr "alice"); ("h2", "register", VStr "bob");
            ("h3", "register", VStr "bob")]. reflexivity. }
  split; [exact Hreach|].
  destruct (revisions_agree_on_single_owner "h1" connectedUsers)
    as [_ [_ Hd]].
  apply (Hd Hreach). intros u v Hu Hv.
  unfold connectionsOf in Hu, Hv.
  change (map_get u connectedUsers)
    with (if same_value_zero (VStr "alice") u then Some ["h1"]
          else if same_value_zero (VStr "bob") u then Some ["h2"; "h3"]
               else None) in Hu.
  change (map_get v connectedUsers)
    with (if same_value_zero (VStr "alice") v then Some ["h1"]
          else if same_value_zero (VStr "bob") v then Some ["h2"; "h3"]
               else None) in Hv.
  destruct (same_value_zero (VStr "alice") u) eqn:Eu.
  - destruct (same_value_zero (VStr "alice") v) eqn:Ev.
    + rewrite same_value_zero_sym in Eu.
      exact (same_value_zero_trans _ _ _ Eu Ev).
    + destruct (same_value_zero (VStr "bob") v); discriminate.
  - destruct (same_value_zero (VStr "bob") u); discriminate.
Defined.

(** ** How long a registration lasts *)

(** A listener takes a handle out of a set only for the disconnect of that
    very socket. *)
Lemma listener_removes_only (h : handle) (e : string) (p : value)
    (m m' : registry) (out : list command) (k : value) (x : handle) :
  registry_ok m = true -> listener h e p m = Returns m' out ->
  set_has x (connectionsOf k m) = true ->
  set_has x (connectionsOf k m') = true \/ (x = h /\ e = "disconnect").
Proof.
  intros Hok Hl Hx.
  destruct (string_dec e "register") as [-> | Hr].
  - left. change (listener h "register" p m) with (on_register h p m) in Hl.
    destruct (truthy p) eqn:Ht.
    + rewrite (connectionsOf_on_register _ _ _ _ _ k Ht Hl).
      destruct (same_value_zero p k) eqn:E; auto.
      rewrite set_has_add, (connectionsOf_compat p k m E), Hx. reflexivity.
    + rewrite on_register_falsy in Hl by assumption.
      now injection Hl as <- _.
  - destruct (string_dec e "disconnect") as [-> | Hd].
    + change (listener h "disconnect" p m) with (on_disconnect h m) in Hl.
      destruct (string_dec x h) as [-> | Hne]; auto. left.
      rewrite (connectionsOf_on_disconnect _ _ _ _ k Hok Hl).
      destruct (owner h m) as [[u s]|] eqn:Ho; auto.
      destruct (same_value_zero u k) eqn:E; auto.
      destruct (owner_connectionsOf _ _ _ _
                  (registry_ok_keys_distinct _ Hok) Ho) as [Hc _].
      rewrite set_has_delete. rewrite <- Hc, (connectionsOf_compat u k m E), Hx.
      apply String.eqb_neq in Hne. now rewrite Hne.
    + destruct (relays_keep_registry _ _ _ _ _ _ Hr Hd Hl) as [-> _].
      now left.
Qed.

Lemma run_keeps_present (events : list inbound) (m m' : registry)
    (k : value) (x : handle) :
  registry_ok m = true ->
  (forall p, ~ In (x, "disconnect", p) events) ->
  set_has x (connectionsOf k m) = true ->
  run events m = Some m' ->
  set_has x (connectionsOf k m') = true.
Proof.
  revert m. induction events as [|[[h e] p] events IH];
    intros m Hok Hno Hx; simpl.
  - now intros [= <-].
  - destruct (listener h e p m) as [|m1 out] eqn:El; try discriminate.
    apply IH.
    + eapply listener_ok; eassumption.
    + intros q Hin. apply (Hno q). now right.
    + destruct (listener_removes_only _ _ _ _ _ _ k x Hok El Hx)
        as [H | [-> ->]]; auto.
      exfalso. apply (Hno p). now left.
Qed.

(** X18.  A registration lasts until the socket disconnects: in any run,
    after a socket has registered with a userId that passes the guard, its
    handle is in that user's set, and the user is a key of the registry, for
    as long as no disconnect of that socket follows -- whatever the other
    sockets register, relay or disconnect. *)
Theorem registration_lasts_until_disconnect :
  forall (before after : list inbound) (h : handle) (userId : value)
         (connectedUsers : registry),
    run (before ++ (h, "register", userId) :: after) [] =
      Some connectedUsers ->
    truthy userId = true ->
    (forall reason, ~ In (h, "disconnect", reason) after) ->
    set_has h (connectionsOf userId connectedUsers) = true /\
    map_has userId connectedUsers = true.
Proof.
  intros before after h u m Hrun Ht Hno.
  rewrite run_app in Hrun.
  destruct (run before []) as [m1|] eqn:H1; try discriminate.
  simpl in Hrun.
  change (listener h "register" u m1) with (on_register h u m1) in Hrun.
  destruct (on_register h u m1) as [|m2 out] eqn:H2; try discriminate.
  assert (Hok1 : registry_ok m1 = true) by (eapply run_ok; [|exact H1]; auto).
  assert (Hok2 : registry_ok m2 = true) by (eapply on_register_ok; eauto).
  assert (Hok : registry_ok m = true) by (eapply run_ok; eauto).
  assert (Hin : set_has h (connectionsOf u m) = true).
  { apply (run_keeps_present after m2 m u h); auto.
    rewrite (connectionsOf_on_register _ _ _ _ _ u Ht H2).
    rewrite same_value_zero_refl. apply set_has_add_same. }
  split; auto. apply registry_ok_key_iff; auto.
  intros Hnil. rewrite Hnil in Hin. discriminate.
Qed.

Lemma registration_lasts_until_disconnect_witness :
  let before : list inbound := [("h1", "register", VStr "alice")] in
  let after : list inbound :=
    [("h1", "disconnect", VStr "transport close");
     ("h3", "register", VStr "bob"); ("h3", "disconnect", VNull)] in
  let connectedUsers := [(VStr "bob", ["h2"])] in
  run (before ++ ("h2", "register", VStr "bob") :: after) [] =
    Some connectedUsers /\
  set_has "h2" (connectionsOf (VStr "bob") connectedUsers) = true /\
  map_has (VStr "bob") connectedUsers = true.
Proof.
  intros before after connectedUsers.
  split; [reflexivity|].
  apply (registration_lasts_until_disconnect before after "h2" (VStr "bob")
           connectedUsers eq_refl eq_refl).
  intros reason [H | [H | [H | []]]]; discriminate.
Defined.
